(** * Allusion clipper: the browser extension's background script

    A shallow embedding of the background script of the Allusion web
    clipper (importImage, imageAsBase64, filenameFromUrl, handleMessage,
    the notification and external-message listeners, permute), and the
    properties of its request bridge, its tag-prompt parser and its
    filename derivation.

    JavaScript strings are sequences of UTF-16 code units; a code unit is a
    natural number here.  String.prototype.toLowerCase depends on the Unicode
    case tables of the runtime and is a parameter of the parser. *)

From Stdlib Require Import Ascii String DecimalString DecimalN.
From Stdlib Require Import Bool Arith NArith ZArith Lia List Permutation Sorted.
Import ListNotations.

Set Implicit Arguments.

(* ================================================================== *)
(** * JavaScript strings *)
(* ================================================================== *)

Definition char := N.
Definition jsstring := list char.

(** A code unit from an ASCII character, a string from an ASCII literal. *)
Definition ch (a : ascii) : char := N_of_ascii a.
Definition lit (s : string) : jsstring := map ch (list_ascii_of_string s).

Fixpoint str_eqb (a b : jsstring) : bool :=
  match a, b with
  | [], [] => true
  | x :: a', y :: b' => N.eqb x y && str_eqb a' b'
  | _, _ => false
  end.

(** s.length === 0 *)
Definition is_empty (s : jsstring) : bool :=
  match s with [] => true | _ => false end.

(** s.startsWith(p) *)
Fixpoint startsWith (p s : jsstring) : bool :=
  match p, s with
  | [], _ => true
  | x :: p', y :: s' => N.eqb x y && startsWith p' s'
  | _ :: _, [] => false
  end.

(** s.endsWith(p) *)
Definition endsWith (p s : jsstring) : bool :=
  startsWith (rev p) (rev s).

(** s.indexOf(p): the position of the first occurrence, or -1. *)
Fixpoint indexOf (p s : jsstring) : Z :=
  if startsWith p s then 0%Z
  else match s with
       | [] => (-1)%Z
       | _ :: s' => let i := indexOf p s' in
                    if (i <? 0)%Z then (-1)%Z else (i + 1)%Z
       end.

(** s.slice(b, e): negative positions count from the end. *)
Definition slice (b e : Z) (s : jsstring) : jsstring :=
  let len := Z.of_nat (length s) in
  let from := if (b <? 0)%Z then Z.max (len + b) 0 else Z.min b len in
  let to := if (e <? 0)%Z then Z.max (len + e) 0 else Z.min e len in
  firstn (Z.to_nat (to - from)) (skipn (Z.to_nat from) s).

(** White space and line terminators, as String.prototype.trim removes them. *)
Definition is_ws (c : char) : bool :=
  existsb (N.eqb c)
    [9; 10; 11; 12; 13; 32; 160; 5760; 8192; 8193; 8194; 8195; 8196; 8197;
     8198; 8199; 8200; 8201; 8202; 8232; 8233; 8239; 8287; 12288; 65279]%N.

Fixpoint trimStart (s : jsstring) : jsstring :=
  match s with
  | c :: s' => if is_ws c then trimStart s' else s
  | [] => []
  end.

Definition trimEnd (s : jsstring) : jsstring := rev (trimStart (rev s)).

(** s.trim() *)
Definition trim (s : jsstring) : jsstring := trimEnd (trimStart s).

(** A matcher tells how many code units a pattern matches at the head of
    the text, if it matches there.  Every pattern of the script matches
    non-empty text only. *)
Definition matcher := jsstring -> option nat.

Definition match_lit (p : jsstring) : matcher :=
  fun s => if startsWith p s then Some (length p) else None.

(** s.split(separator): the pieces between the successive, non-overlapping
    matches, scanning from the left; [skip] counts the code units of the
    current match still to pass. *)
Fixpoint split_go (m : matcher) (skip : nat) (s : jsstring) : list jsstring :=
  match s with
  | [] => [[]]
  | c :: s' =>
      match skip with
      | S k => split_go m k s'
      | O =>
          match m s with
          | Some (S k) => [] :: split_go m k s'
          | _ => match split_go m 0 s' with
                 | piece :: rest => (c :: piece) :: rest
                 | [] => [[c]]
                 end
          end
      end
  end.

Definition split_by (m : matcher) (s : jsstring) : list jsstring :=
  split_go m 0 s.

Definition split (sep s : jsstring) : list jsstring :=
  split_by (match_lit sep) s.

(** s.replace(p, r) with a string pattern: the first occurrence only.  The
    script's replacement is the empty string, so the dollar patterns of a
    replacement string play no part. *)
Fixpoint replace_first (p r s : jsstring) : jsstring :=
  if startsWith p s then r ++ skipn (length p) s
  else match s with
       | [] => []
       | c :: s' => c :: replace_first p r s'
       end.

(** s.replace(/re/g, r): every match, scanning from the left. *)
Fixpoint replace_go (m : matcher) (r : jsstring) (skip : nat) (s : jsstring)
  : jsstring :=
  match s with
  | [] => []
  | c :: s' =>
      match skip with
      | S k => replace_go m r k s'
      | O =>
          match m s with
          | Some (S k) => r ++ replace_go m r k s'
          | _ => c :: replace_go m r 0 s'
          end
      end
  end.

Definition replace_all (m : matcher) (r s : jsstring) : jsstring :=
  replace_go m r 0 s.

(** array.join(sep) *)
Fixpoint join (sep : jsstring) (l : list jsstring) : jsstring :=
  match l with
  | [] => []
  | [x] => x
  | x :: rest => x ++ sep ++ join sep rest
  end.

(** array.indexOf(v) on an array of strings: first position, if any. *)
Fixpoint array_indexOf (v : jsstring) (l : list jsstring) : option nat :=
  match l with
  | [] => None
  | x :: l' => if str_eqb x v then Some 0
               else option_map S (array_indexOf v l')
  end.

(** Number to string, for the non-negative integers below 10^21. *)
Definition number_toString (n : N) : jsstring :=
  lit (NilEmpty.string_of_uint (N.to_uint n)).

(* ================================================================== *)
(** * Filename derivation *)
(* ================================================================== *)

(** filenameFromUrl(srcUrl, fallback); the fallback may be undefined
    ([None]), as in [alt || pageTitle]. *)
Definition filenameFromUrl (srcUrl : jsstring) (fallback : option jsstring)
  : option jsstring :=
  let filename :=
    hd [] (split (lit "?")
             (hd [] (split (lit "#") (last (split (lit "/") srcUrl) [])))) in
  if startsWith (lit "data:image/") srcUrl
     || (indexOf (lit ".") filename =? -1)%Z
  then fallback
  else Some (slice 0 (indexOf (lit ".") filename) filename).

(** ** The derivation in closed form *)

(** The text before the first code unit satisfying [stop]. *)
Fixpoint before (stop : char -> bool) (s : jsstring) : jsstring :=
  match s with
  | [] => []
  | c :: s' => if stop c then [] else c :: before stop s'
  end.

Definition is_unit (c : char) : char -> bool := fun x => N.eqb x c.
Definition is_char (a : ascii) : char -> bool := is_unit (ch a).

(** What follows the last slash of the URL string: the last path segment,
    when neither the query string nor the fragment holds a slash. *)
Definition last_segment (url : jsstring) : jsstring :=
  rev (before (is_char "/") (rev url)).

(** Query string and fragment stripped: cut at the first [?] or [#]. *)
Definition strip_query_fragment (seg : jsstring) : jsstring :=
  before (fun c => is_char "?" c || is_char "#" c) seg.

Definition has_dot (seg : jsstring) : bool := existsb (is_char ".") seg.

(** A data URL is a URL of the [data:] scheme. *)
Definition is_data_url (url : jsstring) : bool := startsWith (lit "data:") url.

(** The derivation in closed form, with the guard of the script: the URL
    starts with [data:image/]. *)
Definition filename_rule (url : jsstring) (fallback : option jsstring)
  : option jsstring :=
  let seg := strip_query_fragment (last_segment url) in
  if startsWith (lit "data:image/") url || negb (has_dot seg)
  then fallback
  else Some (before (is_char ".") seg).

(* ================================================================== *)
(** * Tag-prompt parser *)
(* ================================================================== *)

(** ** permute *)

(** arr.slice(0, i).concat(arr.slice(i + 1)) *)
Definition remove_at (A : Type) (i : nat) (arr : list A) : list A :=
  firstn i arr ++ skipn (S i) arr.

(** permute recurses on an array one element shorter; the recursion is
    structural on a bound of the length. *)
Fixpoint permute_upto (A : Type) (bound : nat) (arr : list A)
  : list (list A) :=
  if length arr <=? 1 then [arr]
  else match bound with
       | O => []
       | S bound' =>
           flat_map
             (fun i => match nth_error arr i with
                       | Some x =>
                           map (cons x) (permute_upto bound' (remove_at i arr))
                       | None => []
                       end)
             (seq 0 (length arr))
       end.

Definition permute (A : Type) (arr : list A) : list (list A) :=
  permute_upto (length arr) arr.

(** ** The patterns of the parser *)

Definition LF : jsstring := [10%N].
Definition marker : jsstring := lit "#!allusion ".

Definition is_digit (c : char) : bool := (48 <=? c)%N && (c <=? 57)%N.

Fixpoint digits (s : jsstring) : nat :=
  match s with
  | c :: s' => if is_digit c then S (digits s') else 0
  | [] => 0
  end.

(** /[()]/ *)
Definition match_paren : matcher :=
  fun s => match s with
           | c :: _ => if is_char "(" c || is_char ")" c then Some 1 else None
           | [] => None
           end.

(** /:\d+(\.\d+)?/: a colon, the longest run of digits (one at least), and
    a dot with its run of digits when one digit at least follows the dot. *)
Definition match_weight : matcher :=
  fun s => match s with
           | c :: r =>
               if is_char ":" c then
                 match digits r with
                 | O => None
                 | S d =>
                     match skipn (S d) r with
                     | c2 :: r2 =>
                         if is_char "." c2 then
                           match digits r2 with
                           | O => Some (2 + d)
                           | S d2 => Some (2 + d + 1 + S d2)
                           end
                         else Some (2 + d)
                     | [] => Some (2 + d)
                     end
                 end
               else None
           | [] => None
           end.

(** / \(|\)/: the first alternative that matches. *)
Definition match_group : matcher :=
  fun s => match match_lit (lit " (") s with
           | Some k => Some k
           | None => match_lit (lit ")") s
           end.

(** ** The steps on the lines of the prompt *)

Definition keepLine (line : jsstring) : bool :=
  negb (startsWith (lit "#") (trim line)) || startsWith marker (trim line).

(** promptLines after the filter and the first map. *)
Definition promptLines (prompt : jsstring) : list jsstring :=
  map (replace_first marker []) (filter keepLine (split LF prompt)).

(** In the words of the specification: a line is dropped when its trimmed
    form starts with [#] and does not start with the marker. *)
Definition dropped (line : jsstring) : bool :=
  startsWith (lit "#") (trim line) && negb (startsWith marker (trim line)).

(** [p] occurs in [s]. *)
Definition occurs (p s : jsstring) : Prop :=
  exists a b, s = a ++ p ++ b.

Definition cleanLine (line : jsstring) : jsstring :=
  let cleanedLine :=
    replace_all (match_lit (lit "\)")) (lit "TEMP_CLOSE_PAREN")
      (replace_all (match_lit (lit "\(")) (lit "TEMP_OPEN_PAREN") line) in
  let cleanedLine := replace_all match_paren [] cleanedLine in
  let cleanedLine :=
    replace_all (match_lit (lit "TEMP_CLOSE_PAREN")) (lit ")")
      (replace_all (match_lit (lit "TEMP_OPEN_PAREN")) (lit "(") cleanedLine) in
  replace_all match_weight [] cleanedLine.

Definition parts (cleanedLine : jsstring) : list jsstring :=
  flat_map
    (fun part => filter (fun p => negb (is_empty p)) (split_by match_group part))
    (split (lit ", ") cleanedLine).

(** The callback of the flatMap that builds processedParts. *)
Definition expandPart (part : jsstring) : list jsstring :=
  let words := split (lit " ") (trim part) in
  if 1 <? length words then map (join (lit " ")) (permute words)
  else [part].

Definition processedParts (line : jsstring) : list jsstring :=
  flat_map expandPart (parts (cleanLine line)).

Definition filteredPrompt (prompt : jsstring) : jsstring :=
  join (lit ", ")
    (map (fun line => join (lit ", ") (processedParts line))
       (promptLines prompt)).

(** array.filter with the index passed to the callback. *)
Definition filter_index (A : Type) (f : A -> nat -> bool) (l : list A)
  : list A :=
  map snd (filter (fun p => f (snd p) (fst p)) (combine (seq 0 (length l)) l)).

(** self.indexOf(value) === index *)
Definition is_first (self : list jsstring) (value : jsstring) (index : nat)
  : bool :=
  match array_indexOf value self with
  | Some i => i =? index
  | None => false
  end.

(** filter((value, index, self) => self.indexOf(value) === index) *)
Definition dedup (self : list jsstring) : list jsstring :=
  filter_index (is_first self) self.

(** For the proofs: membership, and the entries of a list that occur
    neither among those seen nor earlier in the list. *)
Definition mem (x : jsstring) (l : list jsstring) : bool :=
  existsb (str_eqb x) l.

Fixpoint first_only (seen l : list jsstring) : list jsstring :=
  match l with
  | [] => []
  | x :: l' =>
      if mem x seen then first_only (seen ++ [x]) l'
      else x :: first_only (seen ++ [x]) l'
  end.

(** filter((tagName) => tagName !== null) *)
Fixpoint drop_null (A : Type) (l : list (option A)) : list A :=
  match l with
  | [] => []
  | Some a :: l' => a :: drop_null l'
  | None :: l' => drop_null l'
  end.

(** Truthiness of a value that is a string or undefined. *)
Definition truthy (v : option jsstring) : bool :=
  match v with
  | Some (_ :: _) => true
  | _ => false
  end.

Section Parser.

(** String.prototype.toLowerCase *)
Variable toLowerCase : jsstring -> jsstring.

(** The tag names of the prompt, trimmed and in lower case. *)
Definition tagCandidates (prompt : jsstring) : list jsstring :=
  map (fun tagName => toLowerCase (trim tagName))
    (split (lit ",") (filteredPrompt prompt)).

(** The callback of the last map: the existing tag, or null. *)
Definition matchExisting (existingTags : list jsstring) (tagName : jsstring)
  : option jsstring :=
  let existingTag :=
    find (fun tag => str_eqb (toLowerCase tag) tagName) existingTags in
  if truthy existingTag then existingTag else None.

Definition promptTags (prompt : jsstring) (existingTags : list jsstring)
  : list jsstring :=
  drop_null
    (map (matchExisting existingTags)
       (filter (fun tagName => 0 <? length tagName)
          (dedup (tagCandidates prompt)))).

(** The candidate has an existing tag. *)
Definition matched (existingTags : list jsstring) (c : jsstring) : bool :=
  match matchExisting existingTags c with
  | Some _ => true
  | None => false
  end.

End Parser.

(** Lower case on the ASCII letters, where toLowerCase is the shift of
    [A]-[Z] to [a]-[z]. *)
Definition ascii_toLowerCase (s : jsstring) : jsstring :=
  map (fun c => if (65 <=? c)%N && (c <=? 90)%N then (c + 32)%N else c) s.

Definition is_ascii (s : jsstring) : bool := forallb (fun c => (c <? 128)%N) s.

(** A toLowerCase that is the ASCII shift on the ASCII strings. *)
Definition lowers_ascii (toLowerCase : jsstring -> jsstring) : Prop :=
  forall s, is_ascii s = true -> toLowerCase s = ascii_toLowerCase s.

(* ================================================================== *)
(** * Request bridge *)
(* ================================================================== *)

(** ** Promises and asynchronous functions *)

(** What becomes of an awaited promise. *)
Inductive promise (A : Type) : Type :=
| Resolved (a : A)
| Rejected
| Pending.

Arguments Rejected {A}.
Arguments Pending {A}.

(** How a call of an asynchronous function ends: it returns, it throws (its
    promise rejects), or it stays suspended at an await for ever. *)
Inductive completion (A : Type) : Type :=
| Normal (a : A)
| Throw
| Suspended.

Arguments Throw {A}.
Arguments Suspended {A}.

Definition M (St A : Type) : Type := St -> completion A * St.

Definition ret (St A : Type) (a : A) : M St A := fun s => (Normal a, s).

Definition bind (St A B : Type) (c : M St A) (k : A -> M St B) : M St B :=
  fun s => match c s with
           | (Normal a, s') => k a s'
           | (Throw, s') => (Throw, s')
           | (Suspended, s') => (Suspended, s')
           end.

Notation "x <- c1 ;; c2" := (bind c1 (fun x => c2))
  (at level 61, c1 at next level, right associativity).
Notation "c1 ;; c2" := (bind c1 (fun _ => c2))
  (at level 61, right associativity).

Definition await (St A : Type) (p : promise A) : M St A :=
  fun s => match p with
           | Resolved a => (Normal a, s)
           | Rejected => (Throw, s)
           | Pending => (Suspended, s)
           end.

Definition update (St : Type) (f : St -> St) : M St unit :=
  fun s => (Normal tt, f s).

Definition read (St A : Type) (f : St -> A) : M St A :=
  fun s => (Normal (f s), s).

(** try { body } catch (e) { handler } *)
Definition try_catch (St A : Type) (body handler : M St A) : M St A :=
  fun s => match body s with
           | (Throw, s') => handler s'
           | r => r
           end.

(** A method call on a value that may be undefined: a TypeError then. *)
Definition receiver (St A : Type) (v : option A) : M St A :=
  fun s => match v with
           | Some a => (Normal a, s)
           | None => (Throw, s)
           end.

(** ** The state of the extension *)

(** lastSubmittedItem: an object whose properties may be absent. *)
Record item : Type := {
  filename : option jsstring;
  url : option jsstring;
  imgBase64 : option jsstring;
  tagNames : option (list jsstring);
  pageUrl : option jsstring;
  error : option bool
}.

Definition empty_item : item :=
  {| filename := None; url := None; imgBase64 := None; tagNames := None;
     pageUrl := None; error := None |}.

Definition set_error (it : item) : item :=
  {| filename := filename it; url := url it; imgBase64 := imgBase64 it;
     tagNames := tagNames it; pageUrl := pageUrl it; error := Some true |}.

Definition set_tagNames (l : list jsstring) (it : item) : item :=
  {| filename := filename it; url := url it; imgBase64 := imgBase64 it;
     tagNames := Some l; pageUrl := pageUrl it; error := error it |}.

Record notification : Type := {
  notificationId : jsstring;
  notificationMessage : jsstring;
  isClickable : bool
}.

(** The module variable errCount, the key lastSubmittedItem of
    chrome.storage.local, the badge, the notifications created, the bodies
    of the requests issued to /import-image and to /set-tags, answered or
    not, and the responses sent to external pages. *)
Record world : Type := {
  errCount : N;
  storage : option item;
  badgeColor : option jsstring;
  badgeText : option jsstring;
  notifications : list notification;
  imports : list item;
  tagPosts : list (list jsstring * option jsstring);
  responses : list jsstring
}.

Definition initial_world : world :=
  {| errCount := 0; storage := None; badgeColor := None; badgeText := None;
     notifications := []; imports := []; tagPosts := []; responses := [] |}.

(** errCount is a double: the integers up to 2^53 are exact, and 2^53 + 1
    rounds back to 2^53. *)
Definition increment (n : N) : N :=
  if (n <? 2 ^ 53)%N then (n + 1)%N else n.

(** ** The network *)

(** fetch(url), response.blob() and the FileReader of imageAsBase64. *)
Inductive image_response : Type :=
| FetchRejects
| BlobRejects
| ReaderError
| Loaded (base64 blob_type : jsstring).

(** GET /tags: no answer, an answer that is not JSON, JSON that is not an
    array, or the array of the tags, of which the names are read.  Every
    tag of the array has a name that is a string, as Allusion sends them. *)
Inductive tags_response : Type :=
| TagsUnreachable
| TagsNotJson
| TagsNotArray
| TagsList (names : list jsstring).

Record network : Type := {
  fetch_image : option jsstring -> image_response;
  post_import_image : item -> promise unit;
  post_set_tags : list jsstring -> option jsstring -> promise unit;
  get_tags : tags_response
}.

(** imageAsBase64: the executor of the promise is an async function, so a
    rejection of fetch or of blob rejects the executor's own promise, which
    the Promise constructor drops; only the two callbacks of the reader
    settle the promise that is returned. *)
Definition imageAsBase64 (net : network) (u : option jsstring)
  : promise (jsstring * jsstring) :=
  match fetch_image net u with
  | FetchRejects => Pending
  | BlobRejects => Pending
  | ReaderError => Rejected
  | Loaded base64 blob_type => Resolved (base64, blob_type)
  end.

(** fetch(apiUrl/tags), then response.json(), then tags.map(tag => tag.name) *)
Definition fetchTagNames (net : network) : promise (list jsstring) :=
  match get_tags net with
  | TagsList names => Resolved names
  | _ => Rejected
  end.

(** ** importImage *)

(** ToString of a string or undefined. *)
Definition toString (v : option jsstring) : jsstring :=
  match v with
  | Some s => s
  | None => lit "undefined"
  end.

Definition blue : jsstring := lit "rgb(51, 153, 255)".
Definition red : jsstring := lit "rgb(250, 52, 37)".

Definition error_message : jsstring :=
  lit "Could not import image, is Allusion running? Click to retry".

(** The filename with the extension of the blob's type. *)
Definition withExtension (name blob_type : jsstring) : jsstring :=
  let extension := nth_error (split (lit "/") blob_type) 1 in
  if negb (endsWith (toString extension) name)
  then name ++ lit "." ++ toString extension
  else name.

(** The state of a call: the world and the local variable lastSubmittedItem. *)
Definition frame : Type := (world * item)%type.

Definition assign (it : item) : M frame unit :=
  update (fun s : frame => (fst s, it)).

(** chrome.storage.local.set({ lastSubmittedItem }) *)
Definition storage_set : M frame unit :=
  update (fun s : frame =>
    let w := fst s in
    ({| errCount := errCount w; storage := Some (snd s);
        badgeColor := badgeColor w; badgeText := badgeText w;
        notifications := notifications w; imports := imports w;
        tagPosts := tagPosts w; responses := responses w |}, snd s)).

Definition setBadge (color text : jsstring) : M frame unit :=
  update (fun s : frame =>
    let w := fst s in
    ({| errCount := errCount w; storage := storage w;
        badgeColor := Some color; badgeText := Some text;
        notifications := notifications w; imports := imports w;
        tagPosts := tagPosts w; responses := responses w |}, snd s)).

(** fetch(apiUrl/import-image, { method: 'POST', body }) *)
Definition post_item (net : network) (it : item) : M frame unit :=
  update (fun s : frame =>
    let w := fst s in
    ({| errCount := errCount w; storage := storage w;
        badgeColor := badgeColor w; badgeText := badgeText w;
        notifications := notifications w; imports := imports w ++ [it];
        tagPosts := tagPosts w; responses := responses w |}, snd s)) ;;
  await (post_import_image net it).

(** 'import-error-' + n *)
Definition error_key (n : N) : jsstring :=
  lit "import-error-" ++ number_toString n.

(** chrome.notifications.create('import-error-' + errCount++, ...) *)
Definition notify_error : M frame unit :=
  update (fun s : frame =>
    let w := fst s in
    ({| errCount := increment (errCount w); storage := storage w;
        badgeColor := badgeColor w; badgeText := badgeText w;
        notifications :=
          notifications w ++
            [{| notificationId := error_key (errCount w);
                notificationMessage := error_message;
                isClickable := true |}];
        imports := imports w; tagPosts := tagPosts w;
        responses := responses w |}, snd s)).

(** The object assigned to lastSubmittedItem in the try block; tagNames
    defaults to the empty array. *)
Definition submittedItem (name : jsstring) (u page : option jsstring)
  (tags : option (list jsstring)) (base64 blob_type : jsstring) : item :=
  {| filename := Some (withExtension name blob_type);
     url := u;
     imgBase64 := Some base64;
     tagNames := Some (match tags with Some l => l | None => [] end);
     pageUrl := page;
     error := Some false |}.

Definition importImage_try (net : network)
  (name u page : option jsstring) (tags : option (list jsstring))
  : M frame unit :=
  r <- await (imageAsBase64 net u) ;;
  filenameWithExtension <- receiver name ;;
  let it := submittedItem filenameWithExtension u page tags (fst r) (snd r) in
  assign it ;;
  storage_set ;;
  post_item net it ;;
  setBadge blue (lit "1").

Definition importImage_catch : M frame unit :=
  notify_error ;;
  setBadge red (lit "1") ;;
  update (fun s : frame => (fst s, set_error (snd s))) ;;
  storage_set.

(** importImage(filename, url, pageUrl, tagNames = []) *)
Definition importImage (net : network)
  (name u page : option jsstring) (tags : option (list jsstring))
  : M world unit :=
  fun w =>
    let r := try_catch (importImage_try net name u page tags)
               importImage_catch (w, empty_item) in
    (fst r, fst (snd r)).

(** A call that is not awaited: its effects take place, its completion is
    not looked at. *)
Definition spawn (A : Type) (c : M world A) : M world unit :=
  fun w => (Normal tt, snd (c w)).

(** ** The listeners *)

(** chrome.notifications.onClicked: (id, buttonIndex); buttonIndex may be
    undefined. *)
Definition onNotificationClicked (net : network)
  (id : jsstring) (buttonIndex : option N) : M world unit :=
  lastSubmittedItem <- read storage ;;
  match lastSubmittedItem with
  | Some it =>
      if startsWith (lit "import-error") id
         && match buttonIndex with Some 0%N => true | _ => false end
      then spawn (importImage net (filename it) (url it) None None)
      else ret tt
  | None => ret tt
  end.

(** a || b *)
Definition or_else (a b : option jsstring) : option jsstring :=
  if truthy a then a else b.

(** The messages of the popup and of the content script, with the fields
    as they send them; src of a picked image is a string. *)
Inductive message : Type :=
| SetTags (names : list jsstring)
| GetLastSubmittedItem
| GetTags
| PickedImage (src : jsstring) (alt pageTitle page : option jsstring)
| OtherMessage.

Inductive reply : Type :=
| ReplyBool (b : bool)
| ReplyItem (it : option item)
| ReplyTags (names : list jsstring)
| ReplyUndefined.

Definition post_tags (net : network) (names : list jsstring)
  (name : option jsstring) : M world unit :=
  update (fun w =>
    {| errCount := errCount w; storage := storage w;
       badgeColor := badgeColor w; badgeText := badgeText w;
       notifications := notifications w; imports := imports w;
       tagPosts := tagPosts w ++ [(names, name)];
       responses := responses w |}) ;;
  await (post_set_tags net names name).

Definition store (it : item) : M world unit :=
  update (fun w =>
    {| errCount := errCount w; storage := Some it;
       badgeColor := badgeColor w; badgeText := badgeText w;
       notifications := notifications w; imports := imports w;
       tagPosts := tagPosts w; responses := responses w |}).

Definition handleMessage (net : network) (msg : message) : M world reply :=
  lastSubmittedItem <- read storage ;;
  match msg, lastSubmittedItem with
  | SetTags names, Some it =>
      store (set_tagNames names it) ;;
      try_catch
        (post_tags net names (filename it) ;; ret (ReplyBool true))
        (ret (ReplyBool false))
  | SetTags _, None => ret ReplyUndefined
  | GetLastSubmittedItem, _ => ret (ReplyItem lastSubmittedItem)
  | GetTags, _ =>
      try_catch
        (names <- await (fetchTagNames net) ;; ret (ReplyTags names))
        (ret (ReplyTags []))
  | PickedImage src alt pageTitle page, _ =>
      spawn (importImage net (filenameFromUrl src (or_else alt pageTitle))
               (Some src) page None) ;;
      ret (ReplyBool true)
  | OtherMessage, _ => ret ReplyUndefined
  end.

(** A message of an external page: message.type and the payload, with the
    title of the sender's tab.  The message is well formed: the payload is
    there, src is a string and prompt a string or absent. *)
Record external_message : Type := {
  msg_type : jsstring;
  msg_src : jsstring;
  msg_alt : option jsstring;
  msg_pageUrl : option jsstring;
  msg_prompt : option jsstring;
  tab_title : option jsstring
}.

Definition sendResponse (status : jsstring) : M world unit :=
  update (fun w =>
    {| errCount := errCount w; storage := storage w;
       badgeColor := badgeColor w; badgeText := badgeText w;
       notifications := notifications w; imports := imports w;
       tagPosts := tagPosts w; responses := responses w ++ [status] |}).

Section ExternalMessages.

Variable toLowerCase : jsstring -> jsstring.

(** chrome.runtime.onMessageExternal *)
Definition onMessageExternal (net : network) (msg : external_message)
  : M world unit :=
  if str_eqb (msg_type msg) (lit "send-allusion-image") then
    let page := match msg_pageUrl msg with Some p => p | None => [] end in
    let name :=
      filenameFromUrl (msg_src msg) (or_else (tab_title msg) (msg_alt msg)) in
    existingTags <- await (fetchTagNames net) ;;
    let tags :=
      if truthy (msg_prompt msg)
      then promptTags toLowerCase (toString (msg_prompt msg)) existingTags
      else [] in
    spawn (importImage net name (Some (msg_src msg)) (Some page) (Some tags)) ;;
    sendResponse (lit "ok")
  else ret tt.

End ExternalMessages.

(** chrome.contextMenus.onClicked: props.srcUrl, tab.title, props.pageUrl *)
Definition onContextMenuClicked (net : network) (srcUrl : jsstring)
  (title pageUrl : option jsstring) : M world unit :=
  let page := if truthy pageUrl then toString pageUrl else [] in
  spawn (importImage net (filenameFromUrl srcUrl title) (Some srcUrl)
           (Some page) None).

(** The try block of importImage throws before lastSubmittedItem is
    assigned: the promise of imageAsBase64 rejects, or the image is loaded
    and filename is undefined, so that filename.endsWith is a TypeError. *)
Definition fails_before_item (net : network) (name u : option jsstring)
  : Prop :=
  imageAsBase64 net u = Rejected \/
  (exists r, imageAsBase64 net u = Resolved r /\ name = None).

(** ** The worlds importImage leads to *)

Definition error_notification (n : N) : notification :=
  {| notificationId := error_key n;
     notificationMessage := error_message;
     isClickable := true |}.

(** The world after the catch block, entered with the local item [it]
    after [posted] was sent. *)
Definition failed (w : world) (it : item) (posted : list item) : world :=
  {| errCount := increment (errCount w);
     storage := Some (set_error it);
     badgeColor := Some red;
     badgeText := Some (lit "1");
     notifications := notifications w ++ [error_notification (errCount w)];
     imports := imports w ++ posted;
     tagPosts := tagPosts w;
     responses := responses w |}.

(** The world after the optimistic write and the post of [it]. *)
Definition submitted (w : world) (it : item) : world :=
  {| errCount := errCount w;
     storage := Some it;
     badgeColor := badgeColor w;
     badgeText := badgeText w;
     notifications := notifications w;
     imports := imports w ++ [it];
     tagPosts := tagPosts w;
     responses := responses w |}.

Definition succeeded (w : world) (it : item) : world :=
  {| errCount := errCount w;
     storage := Some it;
     badgeColor := Some blue;
     badgeText := Some (lit "1");
     notifications := notifications w;
     imports := imports w ++ [it];
     tagPosts := tagPosts w;
     responses := responses w |}.

(** ** The worlds the extension can be in *)

(** The worlds reached from the initial one by the listeners, one event
    after the other, whatever the network answers and whatever toLowerCase
    is. *)
Inductive reachable : world -> Prop :=
| reach_initial : reachable initial_world
| reach_message net msg w :
    reachable w -> reachable (snd (handleMessage net msg w))
| reach_context_menu net srcUrl title pageUrl w :
    reachable w ->
    reachable (snd (onContextMenuClicked net srcUrl title pageUrl w))
| reach_notification net id buttonIndex w :
    reachable w ->
    reachable (snd (onNotificationClicked net id buttonIndex w))
| reach_external toLowerCase net msg w :
    reachable w ->
    reachable (snd (onMessageExternal toLowerCase net msg w)).



(** ** Networks and worlds for the examples *)

(** Allusion is not running: the image is fetched, the requests to
    localhost are refused. *)
Definition offline : network :=
  {| fetch_image := fun _ => Loaded (lit "data:image/png;base64,AAAA")
                               (lit "image/png");
     post_import_image := fun _ => Rejected;
     post_set_tags := fun _ _ => Rejected;
     get_tags := TagsUnreachable |}.

(** Allusion is running, with the tags [cat] and [png]. *)
Definition online : network :=
  {| fetch_image := fun _ => Loaded (lit "data:image/png;base64,AAAA")
                               (lit "image/png");
     post_import_image := fun _ => Resolved tt;
     post_set_tags := fun _ _ => Resolved tt;
     get_tags := TagsList [lit "cat"; lit "png"] |}.

(** A site that serves a GIF; Allusion is running. *)
Definition gif_site : network :=
  {| fetch_image := fun _ => Loaded (lit "data:image/gif;base64,R0lG")
                               (lit "image/gif");
     post_import_image := fun _ => Resolved tt;
     post_set_tags := fun _ _ => Resolved tt;
     get_tags := TagsList [] |}.

(** The FileReader fails on the blob. *)
Definition unreadable : network :=
  {| fetch_image := fun _ => ReaderError;
     post_import_image := fun _ => Resolved tt;
     post_set_tags := fun _ _ => Resolved tt;
     get_tags := TagsList [] |}.

(** The image cannot be fetched. *)
Definition unreachable_image : network :=
  {| fetch_image := fun _ => FetchRejects;
     post_import_image := fun _ => Resolved tt;
     post_set_tags := fun _ _ => Resolved tt;
     get_tags := TagsList [] |}.

(** A world whose last item was submitted with a tag. *)
Definition tagged_item : item :=
  {| filename := Some (lit "photo.png");
     url := Some (lit "https://x.com/a/photo.png");
     imgBase64 := Some (lit "data:image/png;base64,AAAA");
     tagNames := Some [lit "cat"];
     pageUrl := Some (lit "https://x.com/");
     error := Some true |}.

Definition tagged_world : world :=
  {| errCount := 1; storage := Some tagged_item;
     badgeColor := Some red; badgeText := Some (lit "1");
     notifications := [];
     imports := []; tagPosts := []; responses := [] |}.

(** The world after the first import of a session, tagged [cat], failed at
    the post because Allusion is not running. *)
Definition failed_photo_world : world :=
  snd (importImage offline (Some (lit "photo"))
         (Some (lit "https://x.com/a/photo.png")) (Some (lit "https://x.com/"))
         (Some [lit "cat"]) initial_world).

(** A message of an external page with a prompt. *)
Definition cat_message : external_message :=
  {| msg_type := lit "send-allusion-image";
     msg_src := lit "https://x.com/a/cat.png";
     msg_alt := Some (lit "a cat");
     msg_pageUrl := Some (lit "https://x.com/");
     msg_prompt := Some (lit "cat, cute");
     tab_title := Some (lit "Cats") |}.

(* ================================================================== *)
(** * Slide mode *)
(* ================================================================== *)

Module SlideMode.

Record file : Type := {
  isBroken : bool;
  absolutePath : jsstring
}.

(** fileList[i]: undefined outside of the array. *)
Definition at_index (A : Type) (l : list A) (i : Z) : option A :=
  if (i <? 0)%Z then None else nth_error l (Z.to_nat i).

(** The index that decrImgIndex passes to uiStore.setFirstItem. *)
Definition decrImgIndex (firstItem : Z) : Z := Z.max 0 (firstItem - 1).

(** The index that incrImgIndex passes to uiStore.setFirstItem. *)
Definition incrImgIndex (firstItem len : Z) : Z :=
  Z.min (firstItem + 1) (len - 1).

Inductive key : Type :=
| ArrowLeft
| ArrowRight
| Escape
| Backspace
| OtherKey.

Inductive action : Type :=
| SetFirstItem (i : Z)
| DisableSlideMode
| NoAction.

Definition handleUserKeyPress (k : key) (firstItem len : Z) : action :=
  match k with
  | ArrowLeft => SetFirstItem (decrImgIndex firstItem)
  | ArrowRight => SetFirstItem (incrImgIndex firstItem len)
  | Escape | Backspace => DisableSlideMode
  | OtherKey => NoAction
  end.

(** What the component returns; prevImage and nextImage tell whether the
    side buttons are given their callbacks. *)
Inductive view : Type :=
| NoFilesAvailable
| MissingImageFallback
| ZoomableImage (src : jsstring) (prevImage nextImage : bool).

(** The return of SlideMode; reading isBroken of an undefined file is a
    TypeError. *)
Definition render (fileList : list file) (firstItem : Z) : completion view :=
  let len := Z.of_nat (length fileList) in
  if (firstItem >=? len)%Z then Normal NoFilesAvailable
  else match at_index fileList firstItem with
       | None => Throw
       | Some f =>
           if isBroken f then Normal MissingImageFallback
           else Normal (ZoomableImage (absolutePath f)
                          (firstItem - 1 >=? 0)%Z
                          (firstItem + 1 <? len)%Z)
       end.

End SlideMode.

(* ================================================================== *)
(** * Main process *)
(* ================================================================== *)

Module Main.

(** Electron's Rectangle, as getNormalBounds returns it and as the window
    state file holds it. *)
Record Rectangle : Type := {
  x : Z;
  y : Z;
  width : Z;
  height : Z
}.

(** The options that getWindowBounds sets. *)
Record BoundsOptions : Type := {
  options_x : option Z;
  options_y : option Z;
  options_width : option Z;
  options_height : option Z
}.

(** getWindowBounds: [stateFile] is [None] when the file does not exist and
    [Some None] when it holds no bounds; [workArea] is
    screen.getDisplayMatching(bounds).workArea. *)
Definition getWindowBounds (stateFile : option (option Rectangle))
  (workArea : Rectangle -> Rectangle) : BoundsOptions :=
  match stateFile with
  | Some (Some bounds) =>
      let area := workArea bounds in
      let inside :=
        ((x bounds >=? x area) && (y bounds >=? y area) &&
         (x bounds + width bounds <=? x area + width area) &&
         (y bounds + height bounds <=? y area + height area))%Z in
      let fits :=
        ((width bounds <=? width area) || (height bounds <=? height area))%Z in
      {| options_x := if inside then Some (x bounds) else None;
         options_y := if inside then Some (y bounds) else None;
         options_width := if fits then Some (width bounds) else None;
         options_height := if fits then Some (height bounds) else None |}
  | _ =>
      {| options_x := None; options_y := None;
         options_width := None; options_height := None |}
  end.

(** The width and height of mainOptions in createWindow: the work area size
    of the primary display, overridden by the spread of getWindowBounds. *)
Definition mainOptions_size (primary : Z * Z) (o : BoundsOptions) : Z * Z :=
  (match options_width o with Some w => w | None => fst primary end,
   match options_height o with Some h => h | None => snd primary end).

(** The listener of update-not-available: the flag
    hasCheckedForUpdateOnStartup and the number of dialogs shown;
    [window] tells whether mainWindow is there and not destroyed. *)
Definition onUpdateNotAvailable (window : bool) (st : bool * nat)
  : bool * nat :=
  if negb (fst st) then (true, snd st)
  else if negb window then st
  else (fst st, S (snd st)).

(** The tray: [None] is null, [Some d] a tray that is destroyed or not;
    [created] counts the trays built. *)
Record trays : Type := {
  tray : option bool;
  created : nat
}.

Definition createTrayMenu (st : trays) : trays :=
  match tray st with
  | Some false => st
  | _ => {| tray := Some false; created := S (created st) |}
  end.

(** The end of createWindow: the tray on Mac, or when the clip server runs
    in the background. *)
Definition createWindow_tray (isMac runInBackground : bool) (st : trays)
  : trays :=
  if isMac || runInBackground then createTrayMenu st else st.

(** The listener of onSetRunningInBackground, with a clip server. *)
Definition onSetRunningInBackground (isRunInBackground : bool) (st : trays)
  : trays :=
  if isRunInBackground then createTrayMenu st
  else match tray st with
       | Some _ => {| tray := None; created := created st |}
       | None => st
       end.

End Main.

(** ** Plain lines and safe names *)

(** A code unit that the cleaning of a line does not look at: no
    backslash, parenthesis or colon. *)
Definition plain_unit (c : char) : bool :=
  negb (is_char "\" c || is_char "(" c || is_char ")" c || is_char ":" c).

(** A code unit that delimits nothing in a URL or a filename. *)
Definition name_unit (c : char) : bool :=
  negb (is_char "/" c || is_char "?" c || is_char "#" c || is_char "." c).

(** ** The history of the notifications *)

(** The keys of the counts below [n], in their order. *)
Definition keys_upto (n : N) : list jsstring :=
  map (fun k => error_key (N.of_nat k)) (seq 0 (N.to_nat n)).

(** From [w] to [w'] by steps that leave counter and notifications alone
    and steps of the catch block of importImage. *)
Inductive evolves : world -> world -> Prop :=
| evolves_same w w' :
    errCount w' = errCount w -> notifications w' = notifications w ->
    evolves w w'
| evolves_failed w it posted : evolves w (failed w it posted)
| evolves_trans a b c : evolves a b -> evolves b c -> evolves a c.

(* ================================================================== *)
(** * Facts about strings *)
(* ================================================================== *)

Lemma str_eqb_eq (a b : jsstring) : str_eqb a b = true <-> a = b.
Proof.
  revert b; induction a as [|x a IH]; intros [|y b]; simpl;
    try (split; [discriminate | discriminate]); try tauto.
  rewrite andb_true_iff, N.eqb_eq, IH.
  split; [intros [-> ->]; reflexivity | intros H; inversion H; auto].
Qed.

Lemma str_eqb_refl (a : jsstring) : str_eqb a a = true.
Proof. apply str_eqb_eq; reflexivity. Qed.

Lemma str_eqb_neq (a b : jsstring) : str_eqb a b = false <-> a <> b.
Proof.
  rewrite <- str_eqb_eq. destruct (str_eqb a b); split; congruence.
Qed.

Lemma startsWith_app (p r : jsstring) : startsWith p (p ++ r) = true.
Proof.
  induction p as [|x p IH]; simpl; [reflexivity|].
  now rewrite N.eqb_refl, IH.
Qed.

Lemma startsWith_prefix (p s : jsstring) :
  startsWith p s = true <-> exists r, s = p ++ r.
Proof.
  split.
  - revert s; induction p as [|x p IH]; intros s H.
    + exists s; reflexivity.
    + destruct s as [|y s]; simpl in H; [discriminate|].
      apply andb_true_iff in H as [Hxy H]. apply N.eqb_eq in Hxy; subst y.
      destruct (IH _ H) as [r ->]. exists r; reflexivity.
  - intros [r ->]. apply startsWith_app.
Qed.

Lemma startsWith_skipn (p s : jsstring) :
  startsWith p s = true -> s = p ++ skipn (length p) s.
Proof.
  intros H. apply startsWith_prefix in H as [r ->].
  now rewrite skipn_app, skipn_all, Nat.sub_diag.
Qed.

Lemma endsWith_suffix (p s : jsstring) :
  endsWith p s = true <-> exists r, s = r ++ p.
Proof.
  unfold endsWith. rewrite startsWith_prefix. split; intros [r H].
  - exists (rev r). apply (f_equal (@rev char)) in H.
    now rewrite rev_involutive, rev_app_distr, rev_involutive in H.
  - exists (rev r). subst s. now rewrite rev_app_distr.
Qed.

(** ** Cutting at a code unit *)

Lemma existsb_rev (A : Type) (f : A -> bool) (l : list A) :
  existsb f (rev l) = existsb f l.
Proof.
  induction l as [|x l IH]; simpl; [reflexivity|].
  rewrite existsb_app, IH. simpl. rewrite orb_false_r. apply orb_comm.
Qed.

Lemma before_app (stop : char -> bool) (a b : jsstring) :
  before stop (a ++ b) =
  if existsb stop a then before stop a else a ++ before stop b.
Proof.
  induction a as [|x a IH]; simpl; [reflexivity|].
  destruct (stop x); simpl; [reflexivity|].
  rewrite IH. now destruct (existsb stop a).
Qed.

Lemma before_none (stop : char -> bool) (s : jsstring) :
  existsb stop s = false -> before stop s = s.
Proof.
  induction s as [|x s IH]; simpl; [reflexivity|].
  destruct (stop x); simpl; [discriminate|]. intros H; now rewrite IH.
Qed.

Lemma before_clean (stop : char -> bool) (s : jsstring) :
  existsb stop (before stop s) = false.
Proof.
  induction s as [|x s IH]; simpl; [reflexivity|].
  destruct (stop x) eqn:E; simpl; [reflexivity|]. now rewrite E.
Qed.

(** [before] cuts exactly at the first code unit that stops it. *)
Lemma before_cut (stop : char -> bool) (s : jsstring) :
  existsb stop s = true ->
  exists c rest, s = before stop s ++ c :: rest /\ stop c = true.
Proof.
  induction s as [|x s IH]; simpl; [discriminate|].
  destruct (stop x) eqn:E; simpl.
  - intros _. exists x, s. auto.
  - intros H. destruct (IH H) as (c & rest & Hs & Hc).
    exists c, rest. split; [now rewrite Hs at 1 | assumption].
Qed.

Lemma before_before (p q : char -> bool) (s : jsstring) :
  before p (before q s) = before (fun c => p c || q c) s.
Proof.
  induction s as [|x s IH]; simpl; [reflexivity|].
  destruct (q x); simpl.
  - now rewrite orb_true_r.
  - rewrite orb_false_r. destruct (p x); [reflexivity | now rewrite IH].
Qed.

Lemma before_ext (p q : char -> bool) (s : jsstring) :
  (forall c, p c = q c) -> before p s = before q s.
Proof.
  intros H. induction s as [|x s IH]; simpl; [reflexivity|].
  rewrite H, IH. reflexivity.
Qed.

Lemma firstn_before (stop : char -> bool) (s : jsstring) :
  firstn (length (before stop s)) s = before stop s.
Proof.
  induction s as [|x s IH]; simpl; [reflexivity|].
  destruct (stop x); simpl; [reflexivity | now rewrite IH].
Qed.

Lemma length_before (stop : char -> bool) (s : jsstring) :
  length (before stop s) <= length s.
Proof.
  induction s as [|x s IH]; simpl; [lia|]. destruct (stop x); simpl; lia.
Qed.

(** The last segment is the suffix after the last slash. *)
Lemma last_segment_suffix (u : jsstring) :
  existsb (is_char "/") (last_segment u) = false /\
  (u = last_segment u \/
   exists pre, u = pre ++ [ch "/"] ++ last_segment u).
Proof.
  unfold last_segment. split.
  - rewrite existsb_rev. apply before_clean.
  - destruct (existsb (is_char "/") (rev u)) eqn:E.
    + right. destruct (before_cut _ _ E) as (c & rest & Hs & Hc).
      unfold is_char, is_unit in Hc. apply N.eqb_eq in Hc; subst c.
      exists (rev rest). apply (f_equal (@rev char)) in Hs.
      rewrite rev_involutive, rev_app_distr in Hs. simpl in Hs.
      now rewrite <- app_assoc in Hs.
    + left. now rewrite (before_none _ _ E), rev_involutive.
Qed.

(** ** split at one code unit *)

Lemma split_go_nonempty (m : matcher) (k : nat) (s : jsstring) :
  split_go m k s <> [].
Proof.
  revert k; induction s as [|x s IH]; intros k; simpl; [discriminate|].
  destruct k; [|apply IH].
  destruct (m (x :: s)) as [[|j]|]; try discriminate;
    destruct (split_go m 0 s); discriminate.
Qed.

Lemma split_char_cons (c x : char) (s : jsstring) :
  split [c] (x :: s) =
  if is_unit c x then [] :: split [c] s
  else match split [c] s with
       | piece :: rest => (x :: piece) :: rest
       | [] => [[x]]
       end.
Proof.
  unfold split, split_by, match_lit. simpl.
  rewrite (N.eqb_sym c x). fold (is_unit c x). destruct (is_unit c x); reflexivity.
Qed.

Lemma split_char_none (c : char) (s : jsstring) :
  existsb (is_unit c) s = false -> split [c] s = [s].
Proof.
  induction s as [|x s IH]; [reflexivity|].
  simpl. rewrite split_char_cons. destruct (is_unit c x); simpl; [discriminate|].
  intros H. now rewrite IH.
Qed.

Lemma split_char_some (c : char) (s : jsstring) :
  existsb (is_unit c) s = true ->
  exists p q rest, split [c] s = p :: q :: rest.
Proof.
  induction s as [|x s IH]; simpl; [discriminate|].
  rewrite split_char_cons. destruct (is_unit c x); simpl.
  - intros _. destruct (split [c] s) as [|q rest] eqn:E.
    + now apply split_go_nonempty in E.
    + now exists [], q, rest.
  - intros H. destruct (IH H) as (p & q & rest & ->).
    now exists (x :: p), q, rest.
Qed.

Lemma hd_split_char (c : char) (s : jsstring) :
  hd [] (split [c] s) = before (is_unit c) s.
Proof.
  induction s as [|x s IH]; [reflexivity|].
  rewrite split_char_cons. simpl. destruct (is_unit c x); [reflexivity|].
  rewrite <- IH. destruct (split [c] s) as [|p rest] eqn:E; [|reflexivity].
  now apply split_go_nonempty in E.
Qed.

Lemma last_split_char (c : char) (s : jsstring) :
  last (split [c] s) [] = rev (before (is_unit c) (rev s)).
Proof.
  induction s as [|x s IH]; [reflexivity|].
  rewrite split_char_cons. simpl rev. rewrite before_app, existsb_rev.
  destruct (existsb (is_unit c) s) eqn:E.
  - rewrite <- IH. destruct (split_char_some _ _ E) as (p & q & rest & ->).
    now destruct (is_unit c x).
  - rewrite (split_char_none _ _ E). simpl. rewrite rev_app_distr, rev_involutive.
    destruct (is_unit c x); reflexivity.
Qed.

(** ** indexOf and slice at one code unit *)

Lemma indexOf_char (c : char) (s : jsstring) :
  indexOf [c] s =
  if existsb (is_unit c) s
  then Z.of_nat (length (before (is_unit c) s))
  else (-1)%Z.
Proof.
  induction s as [|x s IH]; [reflexivity|].
  cbn [indexOf startsWith existsb before]. rewrite (N.eqb_sym c x).
  fold (is_unit c x).
  destruct (is_unit c x); cbn [andb orb]; [reflexivity|].
  rewrite IH.
  destruct (existsb (is_unit c) s); [|reflexivity].
  cbn [length]. rewrite Nat2Z.inj_succ.
  match goal with |- context [(?a <? 0)%Z] => destruct (Z.ltb_spec a 0) end;
    lia.
Qed.

Lemma slice_firstn (k : nat) (s : jsstring) :
  k <= length s -> slice 0 (Z.of_nat k) s = firstn k s.
Proof.
  intros H. unfold slice. change (0 <? 0)%Z with false. cbv beta iota zeta.
  destruct (Z.ltb_spec (Z.of_nat k) 0); [lia|].
  rewrite (Z.min_l 0) by lia. rewrite (Z.min_l (Z.of_nat k)) by lia.
  now rewrite Z.sub_0_r, Nat2Z.id.
Qed.

(* ================================================================== *)
(** * Facts about the filename derivation *)
(* ================================================================== *)

Lemma filenameFromUrl_rule (srcUrl : jsstring) (fallback : option jsstring) :
  filenameFromUrl srcUrl fallback = filename_rule srcUrl fallback.
Proof.
  unfold filenameFromUrl, filename_rule, strip_query_fragment, last_segment,
    has_dot, is_char.
  change (lit "/") with [ch "/"]. change (lit "#") with [ch "#"].
  change (lit "?") with [ch "?"]. change (lit ".") with [ch "."].
  rewrite last_split_char, !hd_split_char, before_before.
  set (seg := before _ (rev (before (is_unit (ch "/")) (rev srcUrl)))).
  rewrite indexOf_char.
  destruct (startsWith (lit "data:image/") srcUrl); [reflexivity|]. cbn [orb].
  destruct (existsb (is_unit (ch ".")) seg) eqn:E; cbn [negb].
  - destruct (Z.eqb_spec (Z.of_nat (length (before (is_unit (ch ".")) seg)))
                (-1)); [lia|].
    rewrite slice_firstn by apply length_before. now rewrite firstn_before.
  - reflexivity.
Qed.

(** X25: filenameFromUrl takes the last piece of the whole URL string
    between slashes, cut at its first [?] or [#]; if the URL string starts
    with [data:image/] or the piece has no dot, it returns the fallback
    unchanged; otherwise the piece truncated at its first dot.  So the
    photo of [https://x.com/a/photo.jpg?x=1] is named [photo], and a data
    URL of an image is given the fallback. *)
Theorem filenameFromUrl_derivation :
  (forall srcUrl fallback,
     filenameFromUrl srcUrl (Some fallback) =
     if startsWith (lit "data:image/") srcUrl
        || negb (has_dot (strip_query_fragment (last_segment srcUrl)))
     then Some fallback
     else Some (before (is_char ".")
                  (strip_query_fragment (last_segment srcUrl)))) /\
  filenameFromUrl (lit "https://x.com/a/photo.jpg?x=1") (Some (lit "fallback"))
  = Some (lit "photo") /\
  filenameFromUrl (lit "data:image/png;base64,AAAA") (Some (lit "fallback"))
  = Some (lit "fallback").
Proof.
  split; [|split].
  - intros srcUrl fallback. apply filenameFromUrl_rule.
  - vm_compute. reflexivity.
  - vm_compute. reflexivity.
Qed.

(** C3, at the failing inputs: a URL that is purely data but not of an
    image type, and whose last piece has a dot, is not given the fallback:
    the guard looks for [data:image/] only.  And a slash in the query
    string hides the last path segment, the URL being cut at its slashes
    before the query string is removed: the photo of
    [https://x.com/a/photo.jpg?next=/b/c.png] is named [c]. *)
Theorem filenameFromUrl_purely_data :
  is_data_url (lit "data:text/plain,a.b") = true /\
  filenameFromUrl (lit "data:text/plain,a.b") (Some (lit "fallback"))
  = Some (lit "plain,a") /\
  filenameFromUrl (lit "data:text/plain,a.b") (Some (lit "fallback"))
  <> Some (lit "fallback") /\
  filenameFromUrl (lit "https://x.com/a/photo.jpg?next=/b/c.png")
    (Some (lit "fallback"))
  = Some (lit "c").
Proof.
  split; [reflexivity|]. split; [vm_compute; reflexivity|].
  split; [vm_compute; discriminate|]. vm_compute. reflexivity.
Qed.

(* ================================================================== *)
(** * Facts about the tag-prompt parser *)
(* ================================================================== *)

(** ** The first step: comment lines and the marker *)

Lemma trimStart_split (s : jsstring) :
  exists ws, forallb is_ws ws = true /\ s = ws ++ trimStart s.
Proof.
  induction s as [|c s (ws & Hws & Hs)]; [now exists []|].
  simpl. destruct (is_ws c) eqn:E.
  - exists (c :: ws). simpl. rewrite E, Hws. split; [reflexivity|].
    now rewrite <- Hs.
  - now exists [].
Qed.

Lemma trimEnd_split (s : jsstring) :
  exists ws, forallb is_ws ws = true /\ s = trimEnd s ++ ws.
Proof.
  unfold trimEnd. destruct (trimStart_split (rev s)) as (ws & Hws & Hs).
  exists (rev ws). split.
  - rewrite forallb_forall in *. intros x Hx. apply Hws. now apply in_rev.
  - apply (f_equal (@rev char)) in Hs.
    now rewrite rev_involutive, rev_app_distr in Hs.
Qed.

(** A line is its trimmed form between two runs of white space. *)
Lemma trim_split (s : jsstring) :
  exists ws1 ws2,
    forallb is_ws ws1 = true /\ forallb is_ws ws2 = true /\
    s = ws1 ++ trim s ++ ws2.
Proof.
  unfold trim. destruct (trimStart_split s) as (ws1 & H1 & Hs).
  destruct (trimEnd_split (trimStart s)) as (ws2 & H2 & Ht).
  exists ws1, ws2. repeat split; try assumption.
  now rewrite <- Ht.
Qed.

Lemma is_ws_not_hash (c : char) : is_ws c = true -> N.eqb (ch "#") c = false.
Proof.
  unfold is_ws. cbn [existsb]. intros H.
  repeat (apply orb_prop in H;
          destruct H as [H|H]; [apply N.eqb_eq in H; subst c; reflexivity|]).
  discriminate.
Qed.

Lemma replace_first_here (p r rest : jsstring) :
  replace_first p r (p ++ rest) = r ++ rest.
Proof.
  destruct p as [|x p].
  - destruct rest; reflexivity.
  - cbn [replace_first app]. change (x :: p ++ rest) with ((x :: p) ++ rest).
    rewrite startsWith_app, skipn_app, skipn_all, Nat.sub_diag.
    reflexivity.
Qed.

Lemma replace_first_after_ws (ws r rest : jsstring) :
  forallb is_ws ws = true ->
  replace_first marker r (ws ++ marker ++ rest) = ws ++ r ++ rest.
Proof.
  induction ws as [|w ws IH]; intros H.
  - exact (replace_first_here marker r rest).
  - simpl in H. apply andb_true_iff in H as [Hw H].
    cbn [app replace_first].
    replace (startsWith marker (w :: ws ++ marker ++ rest)) with false.
    + now rewrite IH.
    + unfold marker. cbn [lit list_ascii_of_string map startsWith].
      now rewrite (is_ws_not_hash _ Hw).
Qed.

Lemma replace_first_absent (p r s : jsstring) :
  ~ occurs p s -> replace_first p r s = s.
Proof.
  induction s as [|c s IH]; intros H.
  - simpl. destruct (startsWith p []) eqn:E; [|reflexivity].
    exfalso. apply H. apply startsWith_prefix in E as [b E].
    exists [], b. exact E.
  - cbn [replace_first]. destruct (startsWith p (c :: s)) eqn:E.
    + exfalso. apply H. apply startsWith_prefix in E as [b E].
      exists [], b. exact E.
    + rewrite IH; [reflexivity|]. intros (a & b & Hs). apply H.
      exists (c :: a), b. now rewrite Hs.
Qed.

(** The occurrence that is removed is the first one. *)
Lemma replace_first_occurrence (p r s : jsstring) :
  occurs p s ->
  exists pre post,
    s = pre ++ p ++ post /\
    (forall pre' post', s = pre' ++ p ++ post' -> length pre <= length pre') /\
    replace_first p r s = pre ++ r ++ post.
Proof.
  induction s as [|c s IH]; intros H.
  - destruct H as (a & b & H). symmetry in H.
    apply app_eq_nil in H as [-> H]. apply app_eq_nil in H as [-> ->].
    exists [], []. repeat split. intros; simpl; lia.
  - destruct (startsWith p (c :: s)) eqn:E.
    + exists [], (skipn (length p) (c :: s)). split; [|split].
      * apply (startsWith_skipn _ _ E).
      * intros; simpl; lia.
      * cbn [replace_first]. now rewrite E.
    + assert (Hocc : occurs p s).
      { destruct H as ([|x a] & b & H).
        - rewrite H in E. simpl in E. now rewrite startsWith_app in E.
        - inversion H; subst. now exists a, b. }
      destruct (IH Hocc) as (pre & post & Hs & Hmin & Hr).
      exists (c :: pre), post. split; [|split].
      * now rewrite Hs at 1.
      * intros [|x pre'] post' H'.
        -- rewrite H' in E. simpl in E. now rewrite startsWith_app in E.
        -- inversion H'; subst x. simpl. apply le_n_S. eapply Hmin; eauto.
      * cbn [replace_first]. now rewrite E, Hr.
Qed.

Lemma keepLine_dropped (line : jsstring) : keepLine line = negb (dropped line).
Proof.
  unfold keepLine, dropped.
  destruct (startsWith (lit "#") (trim line)),
    (startsWith marker (trim line)); reflexivity.
Qed.

(** C4 (amended): the first step drops exactly the lines whose trimmed form
    starts with [#] and not with the marker, and removes from every line
    that is left the first occurrence of the marker, wherever it stands:
    for a line whose trimmed form starts with the marker that is the marker
    prefix, and a line in which the marker does not occur is unchanged. *)
Theorem promptLines_first_step (prompt : jsstring) :
  promptLines prompt =
  map (replace_first marker [])
    (filter (fun line => negb (dropped line)) (split LF prompt)) /\
  (forall line, startsWith marker (trim line) = true ->
     exists ws rest,
       forallb is_ws ws = true /\ line = ws ++ marker ++ rest /\
       replace_first marker [] line = ws ++ rest) /\
  (forall line, occurs marker line ->
     exists pre post,
       line = pre ++ marker ++ post /\
       (forall pre' post',
          line = pre' ++ marker ++ post' -> length pre <= length pre') /\
       replace_first marker [] line = pre ++ post) /\
  (forall line, ~ occurs marker line -> replace_first marker [] line = line).
Proof.
  split; [|split; [|split]].
  - unfold promptLines. f_equal. apply filter_ext. apply keepLine_dropped.
  - intros line H. destruct (trim_split line) as (ws1 & ws2 & H1 & _ & Hl).
    apply startsWith_prefix in H as [r Hr]. rewrite Hr in Hl.
    exists ws1, (r ++ ws2). rewrite <- app_assoc in Hl.
    split; [assumption|]. split; [assumption|].
    rewrite Hl at 1. now apply (replace_first_after_ws ws1 []).
  - intros line H. apply (replace_first_occurrence [] H).
  - intros line H. now apply replace_first_absent.
Qed.

(** C4 as stated fails: a line that is kept and does not start with the
    marker loses a marker that stands inside it. *)
Lemma promptLines_marker_counterexample :
  dropped (lit "cat #!allusion dog") = false /\
  startsWith marker (trim (lit "cat #!allusion dog")) = false /\
  promptLines (lit "cat #!allusion dog") = [lit "cat dog"] /\
  promptLines (lit "cat #!allusion dog") <> [lit "cat #!allusion dog"].
Proof.
  repeat split; try (vm_compute; reflexivity).
  vm_compute. discriminate.
Qed.

(** ** Removing the duplicates *)

Lemma mem_In (x : jsstring) (l : list jsstring) : mem x l = true <-> In x l.
Proof.
  unfold mem. rewrite existsb_exists. split.
  - intros (y & Hy & E). apply str_eqb_eq in E. now subst.
  - intros H. exists x. split; [assumption | apply str_eqb_refl].
Qed.

Lemma mem_not_In (x : jsstring) (l : list jsstring) :
  mem x l = false <-> ~ In x l.
Proof.
  rewrite <- mem_In. destruct (mem x l); split; congruence.
Qed.

Lemma array_indexOf_lt (v : jsstring) (l : list jsstring) (i : nat) :
  array_indexOf v l = Some i -> i < length l.
Proof.
  revert i; induction l as [|x l IH]; intros i; simpl; [discriminate|].
  destruct (str_eqb x v).
  - intros H; inversion H; lia.
  - destruct (array_indexOf v l) as [j|]; simpl; [|discriminate].
    intros H; inversion H. specialize (IH j eq_refl). lia.
Qed.

Lemma array_indexOf_app_in (v : jsstring) (pre l : list jsstring) :
  In v pre -> array_indexOf v (pre ++ l) = array_indexOf v pre.
Proof.
  induction pre as [|x pre IH]; simpl; [tauto|].
  destruct (str_eqb x v) eqn:E; [reflexivity|].
  intros [H|H]; [subst; now rewrite str_eqb_refl in E|].
  now rewrite IH.
Qed.

Lemma array_indexOf_In (v : jsstring) (l : list jsstring) :
  In v l -> exists i, array_indexOf v l = Some i.
Proof.
  induction l as [|x l IH]; simpl; [tauto|].
  destruct (str_eqb x v) eqn:E; [now exists 0|].
  intros [H|H]; [subst; now rewrite str_eqb_refl in E|].
  destruct (IH H) as [i ->]. now exists (S i).
Qed.

Lemma array_indexOf_app_here (v : jsstring) (pre l : list jsstring) :
  ~ In v pre -> array_indexOf v (pre ++ v :: l) = Some (length pre).
Proof.
  induction pre as [|x pre IH]; simpl; intros H.
  - now rewrite str_eqb_refl.
  - destruct (str_eqb x v) eqn:E.
    + apply str_eqb_eq in E. tauto.
    + rewrite IH by tauto. reflexivity.
Qed.

Lemma is_first_here (pre l : list jsstring) (x : jsstring) :
  is_first (pre ++ x :: l) x (length pre) = negb (mem x pre).
Proof.
  unfold is_first. destruct (mem x pre) eqn:E.
  - apply mem_In in E. rewrite array_indexOf_app_in by assumption.
    destruct (array_indexOf_In _ _ E) as [i Hi]. rewrite Hi.
    apply array_indexOf_lt in Hi. simpl. apply Nat.eqb_neq. lia.
  - apply mem_not_In in E. rewrite array_indexOf_app_here by assumption.
    simpl. apply Nat.eqb_refl.
Qed.

Lemma filter_index_first_only (pre l : list jsstring) :
  map snd
    (filter (fun p => is_first (pre ++ l) (snd p) (fst p))
       (combine (seq (length pre) (length l)) l))
  = first_only pre l.
Proof.
  revert pre; induction l as [|x l IH]; intros pre; [reflexivity|].
  cbn [length seq combine filter fst snd first_only].
  rewrite is_first_here.
  replace (pre ++ x :: l) with ((pre ++ [x]) ++ l)
    by (now rewrite <- app_assoc).
  replace (S (length pre)) with (length (pre ++ [x]))
    by (rewrite length_app; simpl; lia).
  destruct (mem x pre); cbn [negb map snd]; now rewrite IH.
Qed.

Lemma dedup_first_only (l : list jsstring) : dedup l = first_only [] l.
Proof. exact (filter_index_first_only [] l). Qed.

Lemma first_only_In (seen l : list jsstring) (y : jsstring) :
  In y (first_only seen l) <-> In y l /\ ~ In y seen.
Proof.
  revert seen; induction l as [|x l IH]; intros seen; simpl; [tauto|].
  destruct (mem x seen) eqn:E; simpl; rewrite IH, in_app_iff; simpl.
  - apply mem_In in E. split; [tauto|].
    intros [[H|H] Hn]; [subst; tauto|]. split; [assumption|].
    intros [H'|[H'|[]]]; [tauto|]. subst; tauto.
  - apply mem_not_In in E. split.
    + intros [H|[H Hn]]; [subst; tauto|tauto].
    + intros [[H|H] Hn]; [tauto|].
      destruct (list_eq_dec N.eq_dec x y) as [->|Hxy]; [tauto|].
      right. split; [assumption|]. intros [H'|[H'|[]]]; tauto.
Qed.

Lemma first_only_NoDup (seen l : list jsstring) : NoDup (first_only seen l).
Proof.
  revert seen; induction l as [|x l IH]; intros seen; simpl; [constructor|].
  destruct (mem x seen); [apply IH|].
  constructor; [|apply IH].
  rewrite first_only_In, in_app_iff. simpl. tauto.
Qed.

(** The entries that are kept stand at their first positions, in order. *)
Lemma first_only_positions (seen l : list jsstring) :
  exists ps,
    Forall2 (fun x i => array_indexOf x (seen ++ l) = Some i)
      (first_only seen l) ps /\
    StronglySorted lt ps /\
    Forall (fun i => length seen <= i) ps.
Proof.
  revert seen; induction l as [|x l IH]; intros seen.
  - exists []. repeat constructor.
  - destruct (IH (seen ++ [x])) as (ps & H2 & Hs & Hge).
    rewrite <- app_assoc in H2. simpl in H2.
    rewrite length_app in Hge. simpl in Hge.
    simpl. destruct (mem x seen) eqn:E.
    + exists ps. repeat split; try assumption.
      eapply Forall_impl; [|exact Hge]. simpl; intros; lia.
    + apply mem_not_In in E. exists (length seen :: ps). repeat split.
      * constructor; [now apply array_indexOf_app_here | assumption].
      * constructor; [assumption|].
        eapply Forall_impl; [|exact Hge]. simpl; intros; lia.
      * constructor; [lia|].
        eapply Forall_impl; [|exact Hge]. simpl; intros; lia.
Qed.

Lemma dedup_NoDup (l : list jsstring) : NoDup (dedup l).
Proof. rewrite dedup_first_only. apply first_only_NoDup. Qed.

Lemma dedup_In (l : list jsstring) (y : jsstring) : In y (dedup l) <-> In y l.
Proof. rewrite dedup_first_only, first_only_In. simpl. tauto. Qed.

Lemma Forall2_filter_sorted (A : Type) (R : A -> nat -> Prop) (g : A -> bool)
  (l : list A) (ps : list nat) :
  Forall2 R l ps -> StronglySorted lt ps ->
  exists ps', Forall2 R (filter g l) ps' /\ StronglySorted lt ps' /\
              incl ps' ps.
Proof.
  induction 1 as [|x p l ps Hxp H IH]; intros Hs.
  - exists []. repeat constructor. apply incl_nil_l.
  - apply StronglySorted_inv in Hs as [Hs Hp].
    destruct (IH Hs) as (ps' & H2 & Hs' & Hin). simpl.
    destruct (g x).
    + exists (p :: ps'). repeat split.
      * now constructor.
      * constructor; [assumption|]. rewrite Forall_forall in *.
        intros q Hq. apply Hp. now apply Hin.
      * intros q [->|Hq]; [now left | right; now apply Hin].
    + exists ps'. repeat split; try assumption.
      now apply incl_tl.
Qed.

Lemma Forall2_map_left (A B C : Type) (f : A -> B) (R : B -> C -> Prop)
  (l : list A) (ps : list C) :
  Forall2 R (map f l) ps -> Forall2 (fun x => R (f x)) l ps.
Proof.
  revert ps; induction l as [|x l IH]; intros ps H; inversion H; subst;
    constructor; auto.
Qed.

(** ** Matching the existing tags *)

Section ParserFacts.

Variable toLowerCase : jsstring -> jsstring.

Lemma matchExisting_Some (existingTags : list jsstring) (c t : jsstring) :
  matchExisting toLowerCase existingTags c = Some t ->
  find (fun tag => str_eqb (toLowerCase tag) c) existingTags = Some t /\
  In t existingTags /\ toLowerCase t = c /\ t <> [].
Proof.
  unfold matchExisting.
  destruct (find _ existingTags) as [t'|] eqn:E; simpl; [|discriminate].
  destruct t' as [|x t']; simpl; [discriminate|].
  intros H; inversion H; subst t.
  apply find_some in E as [Hin Heq]. apply str_eqb_eq in Heq.
  repeat split; try assumption. discriminate.
Qed.

Lemma lower_drop_null (existingTags l : list jsstring) :
  map toLowerCase
    (drop_null (map (matchExisting toLowerCase existingTags) l))
  = filter (matched toLowerCase existingTags) l.
Proof.
  induction l as [|c l IH]; [reflexivity|].
  simpl. unfold matched at 1.
  destruct (matchExisting toLowerCase existingTags c) as [t|] eqn:E.
  - apply matchExisting_Some in E as (_ & _ & E & _).
    simpl. now rewrite E, IH.
  - exact IH.
Qed.

Lemma In_drop_null (A : Type) (l : list (option A)) (a : A) :
  In a (drop_null l) <-> In (Some a) l.
Proof.
  induction l as [|[b|] l IH]; simpl; [tauto| |].
  - rewrite IH. split; intros [H|H]; auto; left; congruence.
  - rewrite IH. split; [auto|]. intros [H|H]; [discriminate|assumption].
Qed.

(** The output in lower case is the list of the candidates that are kept. *)
Lemma lower_promptTags (prompt : jsstring) (existingTags : list jsstring) :
  map toLowerCase (promptTags toLowerCase prompt existingTags)
  = filter (matched toLowerCase existingTags)
      (filter (fun tagName => 0 <? length tagName)
         (dedup (tagCandidates toLowerCase prompt))).
Proof. apply lower_drop_null. Qed.

End ParserFacts.

(** C1: every tag of the parser's output is a name of the existing-tag set,
    in the casing of that set: the first existing name whose lower case is
    one of the candidates of the prompt. *)
Theorem promptTags_sound (toLowerCase : jsstring -> jsstring)
  (prompt : jsstring) (existingTags : list jsstring) (t : jsstring) :
  In t (promptTags toLowerCase prompt existingTags) ->
  In t existingTags /\
  exists c,
    In c (tagCandidates toLowerCase prompt) /\
    toLowerCase t = c /\
    find (fun tag => str_eqb (toLowerCase tag) c) existingTags = Some t.
Proof.
  unfold promptTags. rewrite In_drop_null, in_map_iff.
  intros (c & Hc & Hin). apply matchExisting_Some in Hc as (Hf & Ht & Hl & _).
  split; [assumption|]. exists c. repeat split; try assumption.
  apply filter_In in Hin as [Hin _]. now rewrite dedup_In in Hin.
Qed.

Lemma promptTags_sound_witness :
  In (lit "CAT") [lit "Dog"; lit "CAT"; lit "cat"] /\
  exists c,
    In c (tagCandidates ascii_toLowerCase (lit "dog cat, Cat")) /\
    ascii_toLowerCase (lit "CAT") = c /\
    find (fun tag => str_eqb (ascii_toLowerCase tag) c)
      [lit "Dog"; lit "CAT"; lit "cat"] = Some (lit "CAT").
Proof.
  apply (@promptTags_sound ascii_toLowerCase (lit "dog cat, Cat")
           [lit "Dog"; lit "CAT"; lit "cat"] (lit "CAT")).
  vm_compute. left. reflexivity.
Defined.

(** C2: no two entries of the parser's output are equal under
    case-insensitive comparison, and the entries stand in the order of the
    first occurrences of their candidates: the positions of these first
    occurrences in the list of the candidates increase strictly. *)
Theorem promptTags_unique_ordered (toLowerCase : jsstring -> jsstring)
  (prompt : jsstring) (existingTags : list jsstring) :
  NoDup (map toLowerCase (promptTags toLowerCase prompt existingTags)) /\
  exists positions,
    Forall2
      (fun t i =>
         array_indexOf (toLowerCase t) (tagCandidates toLowerCase prompt)
         = Some i)
      (promptTags toLowerCase prompt existingTags) positions /\
    StronglySorted lt positions.
Proof.
  split.
  - rewrite lower_promptTags. do 2 apply NoDup_filter. apply dedup_NoDup.
  - destruct (first_only_positions [] (tagCandidates toLowerCase prompt))
      as (ps & H2 & Hs & _).
    rewrite <- dedup_first_only in H2. simpl in H2.
    destruct (Forall2_filter_sorted (fun tagName => 0 <? length tagName) H2 Hs)
      as (ps1 & H21 & Hs1 & _).
    destruct (Forall2_filter_sorted (matched toLowerCase existingTags) H21 Hs1)
      as (ps2 & H22 & Hs2 & _).
    rewrite <- lower_promptTags in H22.
    exists ps2. split; [|assumption]. exact (Forall2_map_left _ _ H22).
Qed.

(** ** permute *)

Section Permute.

Variable A : Type.









End Permute.

(** ** The expansion of the fragments *)


(** ** The parser does not depend on toLowerCase beyond its arguments *)

Lemma find_ext_in (A : Type) (f g : A -> bool) (l : list A) :
  (forall x, In x l -> f x = g x) -> find f l = find g l.
Proof.
  induction l as [|x l IH]; intros H; [reflexivity|].
  simpl. rewrite (H x) by now left.
  destruct (g x); [reflexivity|]. apply IH. intros y Hy. apply H. now right.
Qed.

Lemma promptTags_ext (f g : jsstring -> jsstring) (prompt : jsstring)
  (existingTags : list jsstring) :
  (forall s, In s (map trim (split (lit ",") (filteredPrompt prompt))) ->
             f s = g s) ->
  (forall s, In s existingTags -> f s = g s) ->
  promptTags f prompt existingTags = promptTags g prompt existingTags.
Proof.
  intros Hc He. unfold promptTags.
  assert (E : tagCandidates f prompt = tagCandidates g prompt).
  { unfold tagCandidates. apply map_ext_in. intros s Hs. apply Hc.
    now apply in_map. }
  rewrite E. f_equal. apply map_ext. intros c. unfold matchExisting.
  rewrite (find_ext_in (fun tag => str_eqb (f tag) c)
             (fun tag => str_eqb (g tag) c)); [reflexivity|].
  intros x Hx. now rewrite He.
Qed.

Lemma promptTags_ascii (f : jsstring -> jsstring) (prompt : jsstring)
  (existingTags : list jsstring) :
  lowers_ascii f ->
  forallb is_ascii (map trim (split (lit ",") (filteredPrompt prompt))) = true ->
  forallb is_ascii existingTags = true ->
  promptTags f prompt existingTags
  = promptTags ascii_toLowerCase prompt existingTags.
Proof.
  intros Hf Hc He. rewrite forallb_forall in Hc, He.
  apply promptTags_ext; intros s Hs; apply Hf; auto.
Qed.

Lemma ascii_toLowerCase_lowers : lowers_ascii ascii_toLowerCase.
Proof. intros s _. reflexivity. Qed.


(** ** From the expanded fragments to the candidates *)















(* ================================================================== *)
(** * Facts about the request bridge *)
(* ================================================================== *)

Unset Implicit Arguments.

(** Runs the operations of the monad of asynchronous functions. *)
Ltac run_async :=
  unfold try_catch, bind, await, read, update, ret, receiver, spawn.

(** ** The keys of the notifications *)

Lemma lit_inj (a b : string) : lit a = lit b -> a = b.
Proof.
  unfold lit. intros H.
  rewrite <- (string_of_list_ascii_of_string a),
          <- (string_of_list_ascii_of_string b).
  f_equal. revert H.
  generalize (list_ascii_of_string a) (list_ascii_of_string b).
  induction l as [|x l IH]; intros [|y l'] H; try discriminate;
    [reflexivity|].
  simpl in H. inversion H as [[Hxy Hl]]. f_equal; [|now apply IH].
  unfold ch in Hxy. apply (f_equal ascii_of_N) in Hxy.
  now rewrite !ascii_N_embedding in Hxy.
Qed.

Lemma number_toString_inj (n m : N) :
  number_toString n = number_toString m -> n = m.
Proof.
  unfold number_toString. intros H. apply lit_inj in H.
  apply DecimalN.Unsigned.to_uint_inj.
  apply (f_equal NilEmpty.uint_of_string) in H.
  rewrite !NilEmpty.usu in H. now inversion H.
Qed.

Lemma error_key_inj (n m : N) : error_key n = error_key m -> n = m.
Proof.
  unfold error_key. intros H. apply app_inv_head in H.
  now apply number_toString_inj.
Qed.


(** ** The four ways of importImage *)

Section ImportImage.

Variable net : network.
Variables (name u page : option jsstring) (tags : option (list jsstring)).
Variable w : world.

Lemma importImage_pending :
  imageAsBase64 net u = Pending ->
  importImage net name u page tags w = (Suspended, w).
Proof.
  intros H. unfold importImage, importImage_try. run_async.
  rewrite H. reflexivity.
Qed.

Lemma importImage_rejected :
  imageAsBase64 net u = Rejected ->
  importImage net name u page tags w = (Normal tt, failed w empty_item []).
Proof.
  intros H. unfold importImage, importImage_try. run_async.
  rewrite H. unfold failed. rewrite app_nil_r. reflexivity.
Qed.

Lemma importImage_no_filename (r : jsstring * jsstring) :
  imageAsBase64 net u = Resolved r -> name = None ->
  importImage net name u page tags w = (Normal tt, failed w empty_item []).
Proof.
  intros H ->. unfold importImage, importImage_try. run_async.
  rewrite H. unfold failed. rewrite app_nil_r. reflexivity.
Qed.

Lemma importImage_loaded (fn base64 blob_type : jsstring) :
  imageAsBase64 net u = Resolved (base64, blob_type) -> name = Some fn ->
  let it := submittedItem fn u page tags base64 blob_type in
  importImage net name u page tags w =
  match post_import_image net it with
  | Resolved _ => (Normal tt, succeeded w it)
  | Rejected => (Normal tt, failed w it [it])
  | Pending => (Suspended, submitted w it)
  end.
Proof.
  intros H -> it.
  unfold importImage, try_catch, importImage_try, post_item, bind, await.
  rewrite H. cbn [receiver fst snd assign storage_set update].
  fold it. destruct (post_import_image net it); reflexivity.
Qed.

End ImportImage.

Lemma imageAsBase64_loaded (net : network) (u : option jsstring)
  (base64 blob_type : jsstring) :
  fetch_image net u = Loaded base64 blob_type ->
  imageAsBase64 net u = Resolved (base64, blob_type).
Proof. unfold imageAsBase64. now intros ->. Qed.

(** ** The counter of the failures *)

Lemma increment_below (n : N) : (n < 2 ^ 53)%N -> increment n = (n + 1)%N.
Proof.
  intros H. unfold increment. apply N.ltb_lt in H. now rewrite H.
Qed.



Lemma increment_ge (n : N) : (n <= increment n)%N.
Proof.
  unfold increment. destruct (n <? 2 ^ 53)%N; lia.
Qed.












(** ** The extension of the filename *)

Lemma withExtension_carries (name base blob_type ext : jsstring) :
  nth_error (split (lit "/") blob_type) 1 = Some ext ->
  name = base ++ lit "." ++ ext ->
  withExtension name blob_type = name.
Proof.
  intros He Hn. unfold withExtension. rewrite He. cbn [toString].
  replace (endsWith ext name) with true; [reflexivity|].
  symmetry. apply endsWith_suffix. exists (base ++ lit ".").
  now rewrite <- app_assoc.
Qed.

Lemma withExtension_appends (name blob_type ext : jsstring) :
  nth_error (split (lit "/") blob_type) 1 = Some ext ->
  withExtension name blob_type = name ++ lit "." ++ ext ->
  ~ exists base, name = base ++ lit "." ++ ext.
Proof.
  intros He Hw (base & Hn).
  rewrite (withExtension_carries name base blob_type ext He Hn) in Hw.
  apply (f_equal (@length char)) in Hw. rewrite !length_app in Hw.
  simpl in Hw. lia.
Qed.

(** C6, at the failing input: an image picked on a page, with the alt text
    [funny gif] and a source without extension, fetched as image/gif.  The
    filename does not carry the extension [.gif], and it is posted
    unchanged, since the test is on the subtype without the dot. *)
Theorem withExtension_suffix_without_dot :
  endsWith (lit ".gif") (lit "funny gif") = false /\
  withExtension (lit "funny gif") (lit "image/gif") = lit "funny gif" /\
  map filename
    (imports
       (snd (handleMessage gif_site
               (PickedImage (lit "https://x.com/a/1234")
                  (Some (lit "funny gif")) (Some (lit "Funny pictures"))
                  (Some (lit "https://x.com/")))
               initial_world)))
  = [Some (lit "funny gif")].
Proof. repeat split; vm_compute; reflexivity. Qed.

(** ** The tags endpoint and the prompt *)

Lemma onMessageExternal_tags_failure (toLowerCase : jsstring -> jsstring)
  (net : network) (msg : external_message) (w : world) :
  msg_type msg = lit "send-allusion-image" ->
  fetchTagNames net = Rejected ->
  onMessageExternal toLowerCase net msg w = (Throw, w).
Proof.
  intros Ht Hn. unfold onMessageExternal. run_async.
  rewrite Ht, str_eqb_refl, Hn. reflexivity.
Qed.

Lemma handleMessage_getTags_failure (net : network) (w : world) :
  fetchTagNames net = Rejected ->
  handleMessage net GetTags w = (Normal (ReplyTags []), w).
Proof.
  intros Hn. unfold handleMessage. run_async.
  rewrite Hn. reflexivity.
Qed.

(** C8, at the failing input: with the tags endpoint unreachable the
    listener of the external messages throws before importImage is called:
    nothing is imported and no response is sent; the getTags branch of
    handleMessage answers the empty list in the same situation. *)
Theorem onMessageExternal_tags_unreachable :
  onMessageExternal ascii_toLowerCase offline cat_message initial_world
  = (Throw, initial_world) /\
  handleMessage offline GetTags initial_world
  = (Normal (ReplyTags []), initial_world).
Proof. split; reflexivity. Qed.

(** ** The listener of the clicks on a notification *)

(** The branch behind the guard: given the button index 0, the listener
    imports again with the filename and the url of the persisted item. *)
Lemma onNotificationClicked_retry (net : network) (id : jsstring) (it : item)
  (w : world) :
  storage w = Some it ->
  startsWith (lit "import-error") id = true ->
  onNotificationClicked net id (Some 0%N) w
  = (Normal tt, snd (importImage net (filename it) (url it) None None w)).
Proof.
  intros Hs Hid. unfold onNotificationClicked. run_async.
  rewrite Hs, Hid. reflexivity.
Qed.


(** Without a button index the listener does nothing. *)
Lemma onNotificationClicked_no_button (net : network) (id : jsstring)
  (w : world) :
  onNotificationClicked net id None w = (Normal tt, w).
Proof.
  unfold onNotificationClicked. run_async.
  destruct (storage w); [|reflexivity]. now rewrite andb_false_r.
Qed.

(** C9, at the failing input: after an import that failed at the post, the
    failed item is persisted with its filename, url and tag, and the
    notification import-error-0 is shown, without buttons.  A click on it
    calls the listener with the id alone: the button index is undefined,
    the guard of the retry is false, and importImage is not called again,
    even with Allusion running by then; the world is as before the click
    and the only body posted is the one of the failed attempt.  This holds
    for every click, whatever the id and the world. *)
Theorem notification_click_no_retry :
  (exists it,
     storage failed_photo_world = Some it /\
     filename it = Some (lit "photo.png") /\
     url it = Some (lit "https://x.com/a/photo.png") /\
     tagNames it = Some [lit "cat"] /\
     error it = Some true) /\
  map notificationId (notifications failed_photo_world)
  = [lit "import-error-0"] /\
  onNotificationClicked online (lit "import-error-0") None failed_photo_world
  = (Normal tt, failed_photo_world) /\
  length
    (imports
       (snd (onNotificationClicked online (lit "import-error-0") None
               failed_photo_world))) = 1 /\
  (forall net id w, onNotificationClicked net id None w = (Normal tt, w)).
Proof.
  split; [|split; [|split; [|split]]].
  - eexists. split; [reflexivity|]. repeat split; vm_compute; reflexivity.
  - vm_compute. reflexivity.
  - apply onNotificationClicked_no_button.
  - rewrite onNotificationClicked_no_button. reflexivity.
  - apply onNotificationClicked_no_button.
Qed.

(** ** A failure before the item is built *)

(** C10, at the failing input: with an item persisted, the image of the
    next import cannot be fetched.  The promise of imageAsBase64 never
    settles, importImage stays suspended at its first await and the catch
    block is not entered: the persisted item is kept as it was, with its
    filename, url and tag, and no further notification is created. *)
Theorem importImage_fetch_failure_keeps_item :
  imageAsBase64 unreachable_image (Some (lit "https://x.com/a/other.png"))
  = Pending /\
  importImage unreachable_image (Some (lit "other"))
    (Some (lit "https://x.com/a/other.png")) (Some (lit "https://x.com/"))
    None failed_photo_world
  = (Suspended, failed_photo_world) /\
  (exists it,
     storage failed_photo_world = Some it /\
     filename it = Some (lit "photo.png") /\
     url it = Some (lit "https://x.com/a/photo.png") /\
     tagNames it = Some [lit "cat"]) /\
  length (notifications failed_photo_world) = 1.
Proof.
  split; [reflexivity|]. split; [|split].
  - now apply importImage_pending.
  - eexists. split; [reflexivity|]. repeat split; vm_compute; reflexivity.
  - reflexivity.
Qed.

(* ================================================================== *)
(** * Further properties *)
(* ================================================================== *)

(** X1: when the fetch of the image, or the reading of its body as a blob,
    rejects, the promise of imageAsBase64 never settles: importImage stays
    suspended at its first await and changes nothing, so no notification is
    created, no badge is set and nothing is persisted. *)
Theorem importImage_fetch_rejection (net : network)
  (name u page : option jsstring) (tags : option (list jsstring))
  (w : world) :
  fetch_image net u = FetchRejects \/ fetch_image net u = BlobRejects ->
  imageAsBase64 net u = Pending /\
  importImage net name u page tags w = (Suspended, w).
Proof.
  intros H.
  assert (E : imageAsBase64 net u = Pending).
  { unfold imageAsBase64. destruct H as [-> | ->]; reflexivity. }
  split; [exact E|]. now apply importImage_pending.
Qed.

Lemma importImage_fetch_rejection_witness :
  imageAsBase64 unreachable_image (Some (lit "https://x.com/a/photo.png"))
  = Pending /\
  importImage unreachable_image (Some (lit "photo"))
    (Some (lit "https://x.com/a/photo.png")) None None tagged_world
  = (Suspended, tagged_world).
Proof.
  apply (importImage_fetch_rejection unreachable_image (Some (lit "photo"))
           (Some (lit "https://x.com/a/photo.png")) None None tagged_world).
  left. reflexivity.
Defined.




(** X4: the prompt of the specification, with a group, a weight, a comment
    line and a marked line, gives the four existing tags in the order of
    the prompt, and nothing of the comment line. *)
Theorem promptTags_example (toLowerCase : jsstring -> jsstring) :
  lowers_ascii toLowerCase ->
  promptTags toLowerCase
    (lit "cat, (cute, fluffy:1.2)" ++ LF ++ lit "#comment" ++ LF ++
     lit "#!allusion extra")
    [lit "cat"; lit "cute"; lit "fluffy"; lit "extra"; lit "comment"]
  = [lit "cat"; lit "cute"; lit "fluffy"; lit "extra"].
Proof.
  intros H.
  rewrite (promptTags_ascii _ _ H) by (vm_compute; reflexivity).
  vm_compute. reflexivity.
Qed.

Lemma promptTags_example_witness :
  promptTags ascii_toLowerCase
    (lit "cat, (cute, fluffy:1.2)" ++ LF ++ lit "#comment" ++ LF ++
     lit "#!allusion extra")
    [lit "cat"; lit "cute"; lit "fluffy"; lit "extra"; lit "comment"]
  = [lit "cat"; lit "cute"; lit "fluffy"; lit "extra"].
Proof.
  apply (promptTags_example ascii_toLowerCase).
  exact ascii_toLowerCase_lowers.
Defined.

(** X5: the setTags message writes the tag names into the persisted item,
    posts them with the filename of the item, and answers true when the
    post succeeds and false when it fails; it does not throw. *)
Theorem handleMessage_setTags (net : network) (names : list jsstring)
  (it : item) (w : world) :
  storage w = Some it ->
  exists r w',
    handleMessage net (SetTags names) w = (r, w') /\
    r <> Throw /\
    storage w' = Some (set_tagNames names it) /\
    tagPosts w' = tagPosts w ++ [(names, filename it)] /\
    (post_set_tags net names (filename it) = Resolved tt ->
     r = Normal (ReplyBool true)) /\
    (post_set_tags net names (filename it) = Rejected ->
     r = Normal (ReplyBool false)).
Proof.
  intros Hs.
  unfold handleMessage, bind, read, try_catch, post_tags, store, update,
    await, ret.
  rewrite Hs. destruct (post_set_tags net names (filename it)) as [[]| |];
    eexists; eexists; (split; [reflexivity|]);
    repeat split; try discriminate; auto.
Qed.

Lemma handleMessage_setTags_witness :
  exists r w',
    handleMessage offline (SetTags [lit "dog"]) tagged_world = (r, w') /\
    r <> Throw /\
    storage w' = Some (set_tagNames [lit "dog"] tagged_item) /\
    tagPosts w' = tagPosts tagged_world ++ [([lit "dog"], filename tagged_item)] /\
    (post_set_tags offline [lit "dog"] (filename tagged_item) = Resolved tt ->
     r = Normal (ReplyBool true)) /\
    (post_set_tags offline [lit "dog"] (filename tagged_item) = Rejected ->
     r = Normal (ReplyBool false)).
Proof.
  apply (handleMessage_setTags offline [lit "dog"] tagged_item tagged_world).
  reflexivity.
Defined.

(** ** More on the parser *)

Lemma find_exists (A : Type) (p : A -> bool) (l : list A) (x : A) :
  In x l -> p x = true -> exists y, find p l = Some y.
Proof.
  intros Hin Hp. destruct (find p l) as [y|] eqn:E; [now exists y|].
  rewrite (find_none p l E x Hin) in Hp. discriminate.
Qed.

Lemma matched_iff (toLowerCase : jsstring -> jsstring)
  (existingTags : list jsstring) (c : jsstring) :
  toLowerCase [] = [] -> c <> [] ->
  matched toLowerCase existingTags c = true <->
  exists t, In t existingTags /\ toLowerCase t = c.
Proof.
  intros H0 Hc. unfold matched. split.
  - destruct (matchExisting toLowerCase existingTags c) as [t|] eqn:E;
      [|discriminate].
    intros _. apply matchExisting_Some in E as (_ & Hin & Hl & _).
    now exists t.
  - intros (t & Hin & Hl). unfold matchExisting.
    destruct (find_exists _ (fun tag => str_eqb (toLowerCase tag) c)
                existingTags t Hin) as [y Hy].
    { apply str_eqb_eq. exact Hl. }
    rewrite Hy. apply find_some in Hy as [_ Hy]. apply str_eqb_eq in Hy.
    destruct y as [|a y]; [congruence | reflexivity].
Qed.

Lemma promptTags_incl (toLowerCase : jsstring -> jsstring)
  (prompt : jsstring) (existingTags : list jsstring) :
  incl (promptTags toLowerCase prompt existingTags) existingTags.
Proof.
  intros t Ht. unfold promptTags in Ht.
  apply In_drop_null, in_map_iff in Ht as (c & Hc & _).
  now apply matchExisting_Some in Hc as (_ & Hin & _).
Qed.

(** X6: under a toLowerCase that keeps the empty string empty, the lower
    case forms of the output are exactly the non-empty candidates of the
    prompt that are the lower case of an existing tag: no candidate that
    matches is lost. *)
Theorem promptTags_complete (toLowerCase : jsstring -> jsstring)
  (prompt : jsstring) (existingTags : list jsstring) (c : jsstring) :
  toLowerCase [] = [] ->
  In c (map toLowerCase (promptTags toLowerCase prompt existingTags)) <->
  In c (tagCandidates toLowerCase prompt) /\ c <> [] /\
  exists t, In t existingTags /\ toLowerCase t = c.
Proof.
  intros H0. rewrite lower_promptTags, !filter_In, dedup_In.
  destruct c as [|a c].
  - simpl. split; [intros ((_ & H) & _); discriminate | intros (_ & H & _)].
    now contradiction H.
  - rewrite (matched_iff toLowerCase existingTags (a :: c) H0)
      by discriminate.
    simpl. split.
    + intros ((Hin & _) & Hm). repeat split; auto. discriminate.
    + intros (Hin & _ & Hm). auto.
Qed.

Lemma promptTags_complete_witness :
  In (lit "cat")
    (map ascii_toLowerCase
       (promptTags ascii_toLowerCase (lit "dog cat, Cat")
          [lit "Dog"; lit "CAT"])) <->
  In (lit "cat") (tagCandidates ascii_toLowerCase (lit "dog cat, Cat")) /\
  lit "cat" <> [] /\
  exists t, In t [lit "Dog"; lit "CAT"] /\ ascii_toLowerCase t = lit "cat".
Proof.
  apply (promptTags_complete ascii_toLowerCase (lit "dog cat, Cat")
           [lit "Dog"; lit "CAT"] (lit "cat")).
  reflexivity.
Defined.

(** X7: the parser returns no more tags than exist, whatever the prompt:
    with no existing tag the output is empty. *)
Theorem promptTags_bounded (toLowerCase : jsstring -> jsstring)
  (prompt : jsstring) (existingTags : list jsstring) :
  length (promptTags toLowerCase prompt existingTags) <= length existingTags /\
  promptTags toLowerCase prompt [] = [].
Proof.
  assert (B : forall e, length (promptTags toLowerCase prompt e) <= length e).
  { intros e.
    rewrite <- (length_map toLowerCase (promptTags toLowerCase prompt e)).
    rewrite <- (length_map toLowerCase e).
    apply NoDup_incl_length.
    - rewrite lower_promptTags. do 2 apply NoDup_filter. apply dedup_NoDup.
    - intros c Hc. apply in_map_iff in Hc as (t & <- & Ht).
      apply in_map. now apply (promptTags_incl toLowerCase prompt e). }
  split; [apply B|].
  specialize (B []). simpl in B.
  destruct (promptTags toLowerCase prompt []); [reflexivity | simpl in B; lia].
Qed.

(** ** Lines that the cleaning leaves alone *)

Lemma occurs_head (x : char) (p s : jsstring) :
  occurs (x :: p) s -> In x s.
Proof.
  intros (a & b & ->). apply in_or_app. right. now left.
Qed.

Lemma replace_all_lit_absent (p r s : jsstring) :
  ~ occurs p s -> replace_all (match_lit p) r s = s.
Proof.
  unfold replace_all. induction s as [|c s IH]; intros H; [reflexivity|].
  cbn [replace_go]. unfold match_lit at 1.
  destruct (startsWith p (c :: s)) eqn:E.
  - exfalso. apply H. apply startsWith_prefix in E as [b E].
    exists [], b. exact E.
  - rewrite IH; [reflexivity|]. intros (a & b & Hs). apply H.
    exists (c :: a), b. now rewrite Hs.
Qed.

Lemma replace_all_unmatched (m : matcher) (r s : jsstring) :
  (forall c rest, In c s -> m (c :: rest) = None) ->
  replace_all m r s = s.
Proof.
  unfold replace_all. induction s as [|c s IH]; intros H; [reflexivity|].
  cbn [replace_go]. rewrite (H c s) by now left.
  rewrite IH; [reflexivity|]. intros d rest Hd. apply H. now right.
Qed.

Lemma plain_unit_false (a : ascii) (c : char) :
  plain_unit c = true ->
  In a ["\"; "("; ")"; ":"]%char -> is_char a c = false.
Proof.
  unfold plain_unit. intros H Ha. apply negb_true_iff in H.
  repeat (apply orb_false_iff in H; destruct H as [H ?]).
  simpl in Ha. destruct Ha as [<-|[<-|[<-|[<-|[]]]]]; assumption.
Qed.

(** X8: a line without backslash, parenthesis and colon, in which the two
    placeholder texts of the parser do not occur, comes out of the cleaning
    of step 2 and 3 unchanged. *)
Theorem cleanLine_plain (line : jsstring) :
  forallb plain_unit line = true ->
  ~ occurs (lit "TEMP_OPEN_PAREN") line ->
  ~ occurs (lit "TEMP_CLOSE_PAREN") line ->
  cleanLine line = line.
Proof.
  intros Hp Ho Hc. rewrite forallb_forall in Hp. unfold cleanLine.
  assert (Hb : forall q, ~ occurs (ch "\" :: q) line).
  { intros q H. apply occurs_head in H.
    pose proof (plain_unit_false "\" _ (Hp _ H)) as E.
    unfold is_char, is_unit in E. rewrite N.eqb_refl in E.
    discriminate E. simpl; auto. }
  rewrite (replace_all_lit_absent (lit "\(") _ line) by apply Hb.
  rewrite (replace_all_lit_absent (lit "\)") _ line) by apply Hb.
  rewrite (replace_all_unmatched match_paren [] line).
  2:{ intros c rest Hin. unfold match_paren.
      rewrite (plain_unit_false "(" c (Hp c Hin)) by (simpl; auto).
      rewrite (plain_unit_false ")" c (Hp c Hin)) by (simpl; auto).
      reflexivity. }
  rewrite (replace_all_lit_absent _ _ line Ho).
  rewrite (replace_all_lit_absent _ _ line Hc).
  apply replace_all_unmatched. intros c rest Hin. unfold match_weight.
  now rewrite (plain_unit_false ":" c (Hp c Hin)) by (simpl; auto).
Qed.

Lemma cleanLine_plain_witness :
  cleanLine (lit "blue eyes, cat") = lit "blue eyes, cat".
Proof.
  apply (cleanLine_plain (lit "blue eyes, cat")).
  - reflexivity.
  - intros (a & b & H). apply (f_equal (existsb (is_char "_"))) in H.
    rewrite !existsb_app in H.
    change (existsb (is_char "_") (lit "blue eyes, cat")) with false in H.
    change (existsb (is_char "_") (lit "TEMP_OPEN_PAREN")) with true in H.
    destruct (existsb (is_char "_") a); discriminate H.
  - intros (a & b & H). apply (f_equal (existsb (is_char "_"))) in H.
    rewrite !existsb_app in H.
    change (existsb (is_char "_") (lit "blue eyes, cat")) with false in H.
    change (existsb (is_char "_") (lit "TEMP_CLOSE_PAREN")) with true in H.
    destruct (existsb (is_char "_") a); discriminate H.
Defined.

(** ** More on the filename *)

Lemma In_before (stop : char -> bool) (s : jsstring) (c : char) :
  In c (before stop s) -> In c s /\ stop c = false.
Proof.
  induction s as [|x s IH]; simpl; [tauto|].
  destruct (stop x) eqn:E; simpl; [tauto|].
  intros [<-|H]; [auto|]. destruct (IH H). auto.
Qed.

Lemma last_segment_after (pre s : jsstring) :
  existsb (is_char "/") s = false ->
  last_segment (pre ++ ch "/" :: s) = s.
Proof.
  intros H. unfold last_segment.
  rewrite rev_app_distr. simpl rev. rewrite <- !app_assoc.
  rewrite before_app, existsb_rev, H.
  change (before (is_char "/") ([47%N] ++ rev pre)) with (@nil char).
  now rewrite app_nil_r, rev_involutive.
Qed.

(** X9: a filename that filenameFromUrl takes from the URL, and not from
    the fallback, holds no slash, question mark, hash or dot. *)
Theorem filenameFromUrl_safe (srcUrl : jsstring)
  (fallback : option jsstring) :
  filenameFromUrl srcUrl fallback = fallback \/
  exists name,
    filenameFromUrl srcUrl fallback = Some name /\
    forallb name_unit name = true.
Proof.
  rewrite filenameFromUrl_rule. unfold filename_rule.
  destruct (startsWith (lit "data:image/") srcUrl || _); [now left|].
  right. eexists. split; [reflexivity|].
  apply forallb_forall. intros c Hc.
  apply In_before in Hc as [Hc Hdot].
  unfold strip_query_fragment in Hc. apply In_before in Hc as [Hc Hq].
  unfold last_segment in Hc. apply in_rev, In_before in Hc as [_ Hs].
  apply orb_false_iff in Hq as [Hq Hh].
  unfold name_unit. now rewrite Hs, Hq, Hh, Hdot.
Qed.

(** X10: when the last segment of the URL starts with a dot, as the name
    of a hidden file does, the filename is the empty string and not the
    fallback. *)
Theorem filenameFromUrl_hidden (pre rest : jsstring)
  (fallback : option jsstring) :
  startsWith (lit "data:image/") (pre ++ lit "/." ++ rest) = false ->
  existsb (is_char "/") rest = false ->
  filenameFromUrl (pre ++ lit "/." ++ rest) fallback = Some [].
Proof.
  intros Hd Hr. rewrite filenameFromUrl_rule. unfold filename_rule.
  rewrite Hd. change (lit "/." ++ rest) with (ch "/" :: ch "." :: rest).
  rewrite last_segment_after by (simpl; exact Hr).
  reflexivity.
Qed.

Lemma filenameFromUrl_hidden_witness :
  filenameFromUrl (lit "https://x.com/a" ++ lit "/." ++ lit "htaccess?x=1")
    (Some (lit "fallback")) = Some [].
Proof.
  apply (filenameFromUrl_hidden (lit "https://x.com/a") (lit "htaccess?x=1")
           (Some (lit "fallback"))).
  - reflexivity.
  - reflexivity.
Defined.

(** ** More on the extension *)

Lemma endsWith_app (a e : jsstring) : endsWith e (a ++ e) = true.
Proof. apply endsWith_suffix. now exists a. Qed.

Lemma withExtension_ends (name blob_type : jsstring) :
  endsWith (toString (nth_error (split (lit "/") blob_type) 1))
    (withExtension name blob_type) = true.
Proof.
  unfold withExtension.
  destruct (endsWith _ name) eqn:E; cbn [negb]; [exact E|].
  rewrite app_assoc. apply endsWith_app.
Qed.

Lemma withExtension_twice (name blob_type : jsstring) :
  withExtension (withExtension name blob_type) blob_type
  = withExtension name blob_type.
Proof.
  unfold withExtension at 1. now rewrite withExtension_ends.
Qed.

(** X11: the filename that importImage submits always ends with the subtype
    of the blob (the text [undefined] when the type has none), and adding
    the extension a second time changes nothing, so a retry does not double
    it. *)
Theorem withExtension_idempotent (name blob_type : jsstring) :
  endsWith (toString (nth_error (split (lit "/") blob_type) 1))
    (withExtension name blob_type) = true /\
  withExtension (withExtension name blob_type) blob_type
  = withExtension name blob_type.
Proof.
  split; [apply withExtension_ends | apply withExtension_twice].
Qed.

(** X12: a blob whose type has no slash, the empty type of an unknown
    content among them, gets the extension [undefined], unless the filename
    already ends with that word. *)
Theorem withExtension_undefined (name blob_type : jsstring) :
  existsb (is_char "/") blob_type = false ->
  endsWith (lit "undefined") name = false ->
  withExtension name blob_type = name ++ lit ".undefined".
Proof.
  intros Ht Hn. unfold withExtension.
  change (lit "/") with [ch "/"].
  rewrite (split_char_none (ch "/") blob_type Ht). cbn [nth_error toString].
  rewrite Hn. reflexivity.
Qed.

Lemma withExtension_undefined_witness :
  withExtension (lit "photo") [] = lit "photo" ++ lit ".undefined".
Proof.
  apply (withExtension_undefined (lit "photo") []).
  - reflexivity.
  - reflexivity.
Defined.

(** ** More on the bridge *)

(** X13: on a message of the popup or the content script as they send
    them, a picked-image message carrying its src as a string, the promise
    of handleMessage does not reject, whatever the persisted item and the
    answers of the network; getTags and getLastSubmittedItem change
    nothing, and a picked image is answered true at once, whatever becomes
    of its import.  (A picked-image message without src is no value of
    [message]: there src.split is a TypeError.) *)
Theorem handleMessage_never_throws (net : network) (msg : message)
  (w : world) :
  fst (handleMessage net msg w) <> Throw /\
  (msg = GetTags \/ msg = GetLastSubmittedItem ->
   snd (handleMessage net msg w) = w) /\
  (forall src alt pageTitle page,
     msg = PickedImage src alt pageTitle page ->
     fst (handleMessage net msg w) = Normal (ReplyBool true)).
Proof.
  unfold handleMessage. run_async. unfold post_tags, store. run_async.
  destruct msg as [names| | |src alt pageTitle page|];
    destruct (storage w) as [it|]; cbn [fst snd];
    try destruct (post_set_tags net names (filename it)) as [[]| |];
    try destruct (fetchTagNames net) as [l| |]; cbn [fst snd];
    (split; [discriminate|]); (split; [|]);
    try (intros [H|H]; discriminate H);
    try (intros ? ? ? ? H; discriminate H);
    try (intros _; reflexivity);
    try (intros; reflexivity).
Qed.



(** X26: when the promise of imageAsBase64 rejects, the FileReader failing
    on the blob, or when the filename is undefined once the image is
    loaded, importImage returns normally from its catch block with the
    local item still empty: what is persisted is the object whose only
    property is error: true, whatever was persisted before, so that the
    filename, the url, the image data and the tags of the previous item are
    lost; nothing is posted and one notification is created. *)
Theorem importImage_catch_overwrites (net : network)
  (name u page : option jsstring) (tags : option (list jsstring))
  (w : world) :
  fails_before_item net name u ->
  exists w',
    importImage net name u page tags w = (Normal tt, w') /\
    storage w'
    = Some {| filename := None; url := None; imgBase64 := None;
              tagNames := None; pageUrl := None; error := Some true |} /\
    imports w' = imports w /\
    notifications w'
    = notifications w ++ [error_notification (errCount w)].
Proof.
  intros H. exists (failed w empty_item []). split; [|split; [|split]].
  - destruct H as [H | (r & H & Hn)].
    + now apply importImage_rejected.
    + now apply (importImage_no_filename net name u page tags w r).
  - reflexivity.
  - apply app_nil_r.
  - reflexivity.
Qed.

Lemma importImage_catch_overwrites_witness :
  exists w',
    importImage unreadable (Some (lit "other"))
      (Some (lit "https://x.com/a/other.png")) None None failed_photo_world
    = (Normal tt, w') /\
    storage w'
    = Some {| filename := None; url := None; imgBase64 := None;
              tagNames := None; pageUrl := None; error := Some true |} /\
    imports w' = imports failed_photo_world /\
    notifications w'
    = notifications failed_photo_world ++
      [error_notification (errCount failed_photo_world)].
Proof.
  apply (importImage_catch_overwrites unreadable (Some (lit "other"))
           (Some (lit "https://x.com/a/other.png")) None None
           failed_photo_world).
  left. reflexivity.
Defined.

(** X24: while the post to /import-image is not answered, importImage
    stays suspended with the new item persisted and not marked failed, its
    request issued, the badge as it was and no notification: what is read
    from the storage in flight is the optimistic item. *)
Theorem importImage_in_flight (net : network) (fn : jsstring)
  (u page : option jsstring) (tags : option (list jsstring))
  (base64 blob_type : jsstring) (w : world) :
  fetch_image net u = Loaded base64 blob_type ->
  post_import_image net (submittedItem fn u page tags base64 blob_type)
  = Pending ->
  exists w',
    importImage net (Some fn) u page tags w = (Suspended, w') /\
    storage w' = Some (submittedItem fn u page tags base64 blob_type) /\
    error (submittedItem fn u page tags base64 blob_type) = Some false /\
    imports w'
    = imports w ++ [submittedItem fn u page tags base64 blob_type] /\
    badgeColor w' = badgeColor w /\ badgeText w' = badgeText w /\
    notifications w' = notifications w.
Proof.
  intros Hf Hp. apply imageAsBase64_loaded in Hf.
  pose proof (importImage_loaded net _ u page tags w fn _ _ Hf eq_refl) as H.
  cbv zeta in H. rewrite Hp in H.
  eexists. split; [exact H|]. repeat split.
Qed.

Lemma importImage_in_flight_witness :
  exists w',
    importImage
      {| fetch_image := fun _ => Loaded (lit "AAAA") (lit "image/png");
         post_import_image := fun _ => Pending;
         post_set_tags := fun _ _ => Pending;
         get_tags := TagsList [] |}
      (Some (lit "photo")) (Some (lit "https://x.com/a/photo.png")) None None
      tagged_world = (Suspended, w') /\
    storage w'
    = Some (submittedItem (lit "photo")
              (Some (lit "https://x.com/a/photo.png")) None None
              (lit "AAAA") (lit "image/png")) /\
    error (submittedItem (lit "photo")
             (Some (lit "https://x.com/a/photo.png")) None None
             (lit "AAAA") (lit "image/png")) = Some false /\
    imports w'
    = imports tagged_world ++
      [submittedItem (lit "photo")
         (Some (lit "https://x.com/a/photo.png")) None None
         (lit "AAAA") (lit "image/png")] /\
    badgeColor w' = badgeColor tagged_world /\
    badgeText w' = badgeText tagged_world /\
    notifications w' = notifications tagged_world.
Proof.
  apply (importImage_in_flight
           {| fetch_image := fun _ => Loaded (lit "AAAA") (lit "image/png");
              post_import_image := fun _ => Pending;
              post_set_tags := fun _ _ => Pending;
              get_tags := TagsList [] |}
           (lit "photo") (Some (lit "https://x.com/a/photo.png")) None None
           (lit "AAAA") (lit "image/png") tagged_world).
  - reflexivity.
  - reflexivity.
Defined.

(** ** The notifications of a run *)

Lemma keys_upto_succ (n : N) :
  keys_upto (n + 1) = keys_upto n ++ [error_key n].
Proof.
  unfold keys_upto. rewrite N.add_1_r, N2Nat.inj_succ, seq_S, map_app.
  simpl. now rewrite N2Nat.id.
Qed.

Lemma keys_upto_NoDup (n : N) : NoDup (keys_upto n).
Proof.
  unfold keys_upto. generalize (seq_NoDup (N.to_nat n) 0).
  induction (seq 0 (N.to_nat n)) as [|k l IH]; intros H; simpl;
    [constructor|].
  inversion H as [|? ? Hk Hl]; subst. constructor; [|now apply IH].
  intros Hin. apply in_map_iff in Hin as (j & Hj & Hin).
  apply error_key_inj, Nat2N.inj in Hj. now subst j.
Qed.

Lemma evolves_importImage (net : network) (name u page : option jsstring)
  (tags : option (list jsstring)) (w : world) :
  evolves w (snd (importImage net name u page tags w)).
Proof.
  destruct (imageAsBase64 net u) as [[b ty]| |] eqn:E.
  - destruct name as [fn|].
    + rewrite (importImage_loaded net _ u page tags w fn b ty E eq_refl).
      destruct (post_import_image net _); simpl;
        solve [apply evolves_failed | now apply evolves_same].
    + rewrite (importImage_no_filename net _ u page tags w _ E eq_refl).
      apply evolves_failed.
  - rewrite (importImage_rejected net name u page tags w E).
    apply evolves_failed.
  - rewrite (importImage_pending net name u page tags w E).
    now apply evolves_same.
Qed.

Lemma evolves_handleMessage (net : network) (msg : message) (w : world) :
  evolves w (snd (handleMessage net msg w)).
Proof.
  unfold handleMessage, bind, read.
  destruct msg as [names| | |src alt pageTitle page|];
    destruct (storage w) as [it|];
    try (now apply evolves_same).
  - unfold try_catch, bind, post_tags, store, update, await, ret.
    destruct (post_set_tags net names (filename it)); now apply evolves_same.
  - unfold try_catch, bind, await, ret.
    destruct (fetchTagNames net); now apply evolves_same.
  - unfold try_catch, bind, await, ret.
    destruct (fetchTagNames net); now apply evolves_same.
  - unfold spawn, ret. apply evolves_importImage.
  - unfold spawn, ret. apply evolves_importImage.
Qed.

Lemma evolves_onNotificationClicked (net : network) (id : jsstring)
  (buttonIndex : option N) (w : world) :
  evolves w (snd (onNotificationClicked net id buttonIndex w)).
Proof.
  unfold onNotificationClicked, bind, read.
  destruct (storage w) as [it|]; [|now apply evolves_same].
  destruct (startsWith (lit "import-error") id && _);
    [|now apply evolves_same].
  unfold spawn. apply evolves_importImage.
Qed.

Lemma evolves_onMessageExternal (toLowerCase : jsstring -> jsstring)
  (net : network) (msg : external_message) (w : world) :
  evolves w (snd (onMessageExternal toLowerCase net msg w)).
Proof.
  unfold onMessageExternal.
  destruct (str_eqb (msg_type msg) (lit "send-allusion-image"));
    [|now apply evolves_same].
  unfold bind, await. destruct (fetchTagNames net) as [names| |];
    try (now apply evolves_same).
  unfold spawn, sendResponse, update. cbn [snd].
  eapply evolves_trans; [apply evolves_importImage|]. now apply evolves_same.
Qed.

Lemma reachable_evolves (w : world) : reachable w -> evolves initial_world w.
Proof.
  induction 1 as [|net msg w _ IH|net srcUrl title pageUrl w _ IH
                  |net id buttonIndex w _ IH|toLowerCase net msg w _ IH].
  - now apply evolves_same.
  - eapply evolves_trans; [exact IH | apply evolves_handleMessage].
  - eapply evolves_trans; [exact IH|].
    unfold onContextMenuClicked, spawn. apply evolves_importImage.
  - eapply evolves_trans; [exact IH | apply evolves_onNotificationClicked].
  - eapply evolves_trans; [exact IH | apply evolves_onMessageExternal].
Qed.

Lemma evolves_keys (a b : world) :
  evolves a b ->
  (errCount a <= errCount b)%N /\
  (map notificationId (notifications a) = keys_upto (errCount a) ->
   (errCount b < 2 ^ 53)%N ->
   map notificationId (notifications b) = keys_upto (errCount b)).
Proof.
  induction 1 as [w w' He Hn|w it posted|a b c _ [Lab Kab] _ [Lbc Kbc]].
  - split; [lia|]. now rewrite He, Hn.
  - split; [apply increment_ge|]. cbn [failed errCount notifications].
    intros Hk Hlt.
    assert (Hw : (errCount w < 2 ^ 53)%N).
    { pose proof (increment_ge (errCount w)). lia. }
    rewrite (increment_below _ Hw), keys_upto_succ, map_app, Hk.
    reflexivity.
  - split; [lia|]. intros Ha Hc. apply Kbc; [|assumption].
    apply Kab; [assumption|lia].
Qed.

(** X16: in every world the extension reaches with errCount below 2^53,
    the notifications created are the failures counted by errCount, with
    the keys import-error-0, import-error-1, ... in the order of their
    creation: no key is used twice, so no failure notification replaces an
    earlier one. *)
Theorem reachable_notifications (w : world) :
  reachable w -> (errCount w < 2 ^ 53)%N ->
  map notificationId (notifications w) = keys_upto (errCount w) /\
  N.of_nat (length (notifications w)) = errCount w /\
  NoDup (map notificationId (notifications w)).
Proof.
  intros Hr Hlt. apply reachable_evolves, evolves_keys in Hr as [_ Hk].
  specialize (Hk eq_refl Hlt). split; [exact Hk|]. split.
  - rewrite <- (length_map notificationId), Hk. unfold keys_upto.
    now rewrite length_map, length_seq, N2Nat.id.
  - rewrite Hk. apply keys_upto_NoDup.
Qed.

Lemma reachable_notifications_witness :
  map notificationId
    (notifications
       (snd (onContextMenuClicked offline (lit "https://x.com/a/cat.png")
               (Some (lit "Cats")) None initial_world)))
  = keys_upto
      (errCount
         (snd (onContextMenuClicked offline (lit "https://x.com/a/cat.png")
                 (Some (lit "Cats")) None initial_world))) /\
  N.of_nat
    (length
       (notifications
          (snd (onContextMenuClicked offline (lit "https://x.com/a/cat.png")
                  (Some (lit "Cats")) None initial_world))))
  = errCount
      (snd (onContextMenuClicked offline (lit "https://x.com/a/cat.png")
              (Some (lit "Cats")) None initial_world)) /\
  NoDup
    (map notificationId
       (notifications
          (snd (onContextMenuClicked offline (lit "https://x.com/a/cat.png")
                  (Some (lit "Cats")) None initial_world)))).
Proof.
  apply (reachable_notifications
           (snd (onContextMenuClicked offline (lit "https://x.com/a/cat.png")
                   (Some (lit "Cats")) None initial_world))).
  - apply reach_context_menu. apply reach_initial.
  - reflexivity.
Defined.




(* ================================================================== *)
(** * Slide mode: facts *)
(* ================================================================== *)

(** X18: with the index of the slide inside the file list, both arrow
    keys ask for an index inside the list, and the slide is rendered
    without error: for a file that is not broken as the image, whose side
    button is given its callback exactly when the step behind it changes
    the index; for a broken file as the fallback, which has no side
    button, whatever the index. *)
Theorem slide_in_range (fileList : list SlideMode.file) (firstItem : Z) :
  (0 <= firstItem < Z.of_nat (length fileList))%Z ->
  (0 <= SlideMode.decrImgIndex firstItem < Z.of_nat (length fileList))%Z /\
  (0 <= SlideMode.incrImgIndex firstItem (Z.of_nat (length fileList))
   < Z.of_nat (length fileList))%Z /\
  exists f,
    SlideMode.at_index fileList firstItem = Some f /\
    (SlideMode.isBroken f = true ->
     SlideMode.render fileList firstItem
     = Normal SlideMode.MissingImageFallback) /\
    (SlideMode.isBroken f = false ->
     exists prevImage nextImage,
       SlideMode.render fileList firstItem
       = Normal (SlideMode.ZoomableImage (SlideMode.absolutePath f)
                   prevImage nextImage) /\
       (prevImage = true <->
        SlideMode.decrImgIndex firstItem <> firstItem) /\
       (nextImage = true <->
        SlideMode.incrImgIndex firstItem (Z.of_nat (length fileList))
        <> firstItem)).
Proof.
  intros H. unfold SlideMode.decrImgIndex, SlideMode.incrImgIndex.
  split; [lia|]. split; [lia|].
  unfold SlideMode.render, SlideMode.at_index.
  destruct (Z.geb_spec firstItem (Z.of_nat (length fileList))); [lia|].
  destruct (Z.ltb_spec firstItem 0); [lia|].
  destruct (nth_error fileList (Z.to_nat firstItem)) as [f|] eqn:E.
  - exists f. split; [reflexivity|]. split; intros Hb; rewrite Hb.
    + reflexivity.
    + eexists _, _. split; [reflexivity|]. split.
      * rewrite Z.geb_le. lia.
      * rewrite Z.ltb_lt. lia.
  - apply nth_error_None in E. lia.
Qed.

Lemma slide_in_range_witness :
  (0 <= SlideMode.decrImgIndex 0 < Z.of_nat 2)%Z /\
  (0 <= SlideMode.incrImgIndex 0 (Z.of_nat 2) < Z.of_nat 2)%Z /\
  exists f,
    SlideMode.at_index
      [{| SlideMode.isBroken := false;
          SlideMode.absolutePath := lit "a.png" |};
       {| SlideMode.isBroken := true;
          SlideMode.absolutePath := lit "b.png" |}] 0 = Some f /\
    (SlideMode.isBroken f = true ->
     SlideMode.render
       [{| SlideMode.isBroken := false;
           SlideMode.absolutePath := lit "a.png" |};
        {| SlideMode.isBroken := true;
           SlideMode.absolutePath := lit "b.png" |}] 0
     = Normal SlideMode.MissingImageFallback) /\
    (SlideMode.isBroken f = false ->
     exists prevImage nextImage,
       SlideMode.render
         [{| SlideMode.isBroken := false;
             SlideMode.absolutePath := lit "a.png" |};
          {| SlideMode.isBroken := true;
             SlideMode.absolutePath := lit "b.png" |}] 0
       = Normal (SlideMode.ZoomableImage (SlideMode.absolutePath f)
                   prevImage nextImage) /\
       (prevImage = true <-> SlideMode.decrImgIndex 0 <> 0%Z) /\
       (nextImage = true <->
        SlideMode.incrImgIndex 0 (Z.of_nat 2) <> 0%Z)).
Proof.
  apply (slide_in_range
           [{| SlideMode.isBroken := false;
               SlideMode.absolutePath := lit "a.png" |};
            {| SlideMode.isBroken := true;
               SlideMode.absolutePath := lit "b.png" |}] 0).
  simpl. lia.
Defined.

(** X19: on an empty file list the right arrow key asks for a negative
    index, -1 from any index that is not negative, and a slide at a
    negative index cannot be rendered: the file is undefined and reading
    isBroken throws. *)
Theorem slide_empty_list :
  (forall firstItem,
     (0 <= firstItem)%Z ->
     SlideMode.handleUserKeyPress SlideMode.ArrowRight firstItem 0
     = SlideMode.SetFirstItem (-1)) /\
  (forall fileList firstItem,
     (firstItem < 0)%Z -> SlideMode.render fileList firstItem = Throw).
Proof.
  split.
  - intros firstItem H. unfold SlideMode.handleUserKeyPress,
      SlideMode.incrImgIndex. f_equal. lia.
  - intros fileList firstItem H. unfold SlideMode.render, SlideMode.at_index.
    destruct (Z.geb_spec firstItem (Z.of_nat (length fileList))); [lia|].
    destruct (Z.ltb_spec firstItem 0); [reflexivity|lia].
Qed.

(* ================================================================== *)
(** * Main process: facts *)
(* ================================================================== *)

(** X20: a position that getWindowBounds restores lies with the whole
    window inside the work area of the display, and comes with the saved
    size; without a state file, or with one that holds no bounds, nothing
    is restored. *)
Theorem getWindowBounds_position (bounds : Main.Rectangle)
  (workArea : Main.Rectangle -> Main.Rectangle) (px : Z) :
  Main.options_x (Main.getWindowBounds (Some (Some bounds)) workArea)
  = Some px ->
  px = Main.x bounds /\
  Main.options_y (Main.getWindowBounds (Some (Some bounds)) workArea)
  = Some (Main.y bounds) /\
  (Main.x (workArea bounds) <= Main.x bounds)%Z /\
  (Main.y (workArea bounds) <= Main.y bounds)%Z /\
  (Main.x bounds + Main.width bounds
   <= Main.x (workArea bounds) + Main.width (workArea bounds))%Z /\
  (Main.y bounds + Main.height bounds
   <= Main.y (workArea bounds) + Main.height (workArea bounds))%Z /\
  Main.options_width (Main.getWindowBounds (Some (Some bounds)) workArea)
  = Some (Main.width bounds) /\
  Main.options_height (Main.getWindowBounds (Some (Some bounds)) workArea)
  = Some (Main.height bounds).
Proof.
  unfold Main.getWindowBounds. cbn [Main.options_x Main.options_y
    Main.options_width Main.options_height].
  destruct (_ && _ && _ && _)%bool eqn:E; [|discriminate].
  intros H. inversion H; subst px.
  apply andb_true_iff in E as [E E4]. apply andb_true_iff in E as [E E3].
  apply andb_true_iff in E as [E1 E2].
  apply Z.geb_le in E1. apply Z.geb_le in E2.
  apply Z.leb_le in E3. apply Z.leb_le in E4.
  assert (F : (Main.width bounds <=? Main.width (workArea bounds))%Z = true)
    by (apply Z.leb_le; lia).
  rewrite F. cbn [orb]. repeat split; assumption.
Qed.

Lemma getWindowBounds_position_witness :
  10%Z = Main.x {| Main.x := 10; Main.y := 20; Main.width := 800;
                   Main.height := 600 |} /\
  Main.options_y
    (Main.getWindowBounds
       (Some (Some {| Main.x := 10; Main.y := 20; Main.width := 800;
                      Main.height := 600 |}))
       (fun _ => {| Main.x := 0; Main.y := 0; Main.width := 1920;
                    Main.height := 1080 |}))
  = Some (Main.y {| Main.x := 10; Main.y := 20; Main.width := 800;
                    Main.height := 600 |}) /\
  (Main.x {| Main.x := 0; Main.y := 0; Main.width := 1920;
             Main.height := 1080 |}
   <= Main.x {| Main.x := 10; Main.y := 20; Main.width := 800;
                Main.height := 600 |})%Z /\
  (Main.y {| Main.x := 0; Main.y := 0; Main.width := 1920;
             Main.height := 1080 |}
   <= Main.y {| Main.x := 10; Main.y := 20; Main.width := 800;
                Main.height := 600 |})%Z /\
  (Main.x {| Main.x := 10; Main.y := 20; Main.width := 800;
             Main.height := 600 |}
   + Main.width {| Main.x := 10; Main.y := 20; Main.width := 800;
                   Main.height := 600 |}
   <= Main.x {| Main.x := 0; Main.y := 0; Main.width := 1920;
                Main.height := 1080 |}
      + Main.width {| Main.x := 0; Main.y := 0; Main.width := 1920;
                      Main.height := 1080 |})%Z /\
  (Main.y {| Main.x := 10; Main.y := 20; Main.width := 800;
             Main.height := 600 |}
   + Main.height {| Main.x := 10; Main.y := 20; Main.width := 800;
                    Main.height := 600 |}
   <= Main.y {| Main.x := 0; Main.y := 0; Main.width := 1920;
                Main.height := 1080 |}
      + Main.height {| Main.x := 0; Main.y := 0; Main.width := 1920;
                       Main.height := 1080 |})%Z /\
  Main.options_width
    (Main.getWindowBounds
       (Some (Some {| Main.x := 10; Main.y := 20; Main.width := 800;
                      Main.height := 600 |}))
       (fun _ => {| Main.x := 0; Main.y := 0; Main.width := 1920;
                    Main.height := 1080 |}))
  = Some (Main.width {| Main.x := 10; Main.y := 20; Main.width := 800;
                        Main.height := 600 |}) /\
  Main.options_height
    (Main.getWindowBounds
       (Some (Some {| Main.x := 10; Main.y := 20; Main.width := 800;
                      Main.height := 600 |}))
       (fun _ => {| Main.x := 0; Main.y := 0; Main.width := 1920;
                    Main.height := 1080 |}))
  = Some (Main.height {| Main.x := 10; Main.y := 20; Main.width := 800;
                         Main.height := 600 |}).
Proof.
  apply (getWindowBounds_position
           {| Main.x := 10; Main.y := 20; Main.width := 800;
              Main.height := 600 |}
           (fun _ => {| Main.x := 0; Main.y := 0; Main.width := 1920;
                        Main.height := 1080 |}) 10).
  reflexivity.
Defined.

(** X21: the saved size is restored as soon as one of its two dimensions
    fits the work area: a window saved wider than the work area and not
    higher is created with the saved width, wider than the work area, and
    without a restored position. *)
Theorem getWindowBounds_wide (bounds : Main.Rectangle)
  (workArea : Main.Rectangle -> Main.Rectangle) (primary : Z * Z) :
  (Main.width (workArea bounds) < Main.width bounds)%Z ->
  (Main.height bounds <= Main.height (workArea bounds))%Z ->
  Main.mainOptions_size primary
    (Main.getWindowBounds (Some (Some bounds)) workArea)
  = (Main.width bounds, Main.height bounds) /\
  Main.options_x (Main.getWindowBounds (Some (Some bounds)) workArea)
  = None /\
  Main.options_y (Main.getWindowBounds (Some (Some bounds)) workArea)
  = None.
Proof.
  intros Hw Hh. unfold Main.mainOptions_size, Main.getWindowBounds.
  cbn [Main.options_x Main.options_y Main.options_width
    Main.options_height].
  assert (F : (Main.height bounds <=? Main.height (workArea bounds))%Z = true)
    by (apply Z.leb_le; lia).
  rewrite F, orb_true_r.
  destruct (_ && _ && _ && _)%bool eqn:E; [|auto].
  apply andb_true_iff in E as [E _]. apply andb_true_iff in E as [E E3].
  apply andb_true_iff in E as [E1 _].
  apply Z.geb_le in E1. apply Z.leb_le in E3. lia.
Qed.

Lemma getWindowBounds_wide_witness :
  Main.mainOptions_size (1920, 1040)%Z
    (Main.getWindowBounds
       (Some (Some {| Main.x := 0; Main.y := 0; Main.width := 2560;
                      Main.height := 600 |}))
       (fun _ => {| Main.x := 0; Main.y := 0; Main.width := 1920;
                    Main.height := 1040 |}))
  = (Main.width {| Main.x := 0; Main.y := 0; Main.width := 2560;
                   Main.height := 600 |},
     Main.height {| Main.x := 0; Main.y := 0; Main.width := 2560;
                    Main.height := 600 |}) /\
  Main.options_x
    (Main.getWindowBounds
       (Some (Some {| Main.x := 0; Main.y := 0; Main.width := 2560;
                      Main.height := 600 |}))
       (fun _ => {| Main.x := 0; Main.y := 0; Main.width := 1920;
                    Main.height := 1040 |}))
  = None /\
  Main.options_y
    (Main.getWindowBounds
       (Some (Some {| Main.x := 0; Main.y := 0; Main.width := 2560;
                      Main.height := 600 |}))
       (fun _ => {| Main.x := 0; Main.y := 0; Main.width := 1920;
                    Main.height := 1040 |}))
  = None.
Proof.
  apply (getWindowBounds_wide
           {| Main.x := 0; Main.y := 0; Main.width := 2560;
              Main.height := 600 |}
           (fun _ => {| Main.x := 0; Main.y := 0; Main.width := 1920;
                        Main.height := 1040 |}) (1920, 1040)%Z).
  - simpl. lia.
  - simpl. lia.
Defined.

(** X22: the first update-not-available event of a run shows no dialog,
    whatever check it answers; each later one shows one dialog when the
    main window is there, and none otherwise. *)
Theorem update_not_available_dialogs (first : bool) (later : list bool) :
  fold_left (fun st window => Main.onUpdateNotAvailable window st)
    (first :: later) (false, 0)
  = (true, count_occ bool_dec later true).
Proof.
  cbn [fold_left Main.onUpdateNotAvailable fst snd negb].
  assert (G : forall l n,
            fold_left (fun st window => Main.onUpdateNotAvailable window st)
              l (true, n) = (true, n + count_occ bool_dec l true)).
  { induction l as [|b l IH]; intros n; simpl; [f_equal; lia|].
    unfold Main.onUpdateNotAvailable at 2. cbn [fst snd negb].
    destruct b; cbn [negb]; rewrite IH.
    - destruct (bool_dec true true); [|congruence]. simpl. f_equal. lia.
    - destruct (bool_dec false true); [discriminate|]. reflexivity. }
  apply (G later 0).
Qed.

(** X23: after run in background is switched on there is a tray that is
    not destroyed, and none is built when one was there already; after it
    is switched off there is none, on the Mac too, where createWindow
    builds the tray in every case. *)
Theorem tray_follows_setting (st : Main.trays) (runInBackground : bool) :
  Main.tray (Main.onSetRunningInBackground true st) = Some false /\
  (Main.tray st = Some false ->
   Main.onSetRunningInBackground true st = st) /\
  Main.created
    (Main.onSetRunningInBackground true
       (Main.onSetRunningInBackground true st))
  = Main.created (Main.onSetRunningInBackground true st) /\
  Main.tray
    (Main.onSetRunningInBackground false
       (Main.createWindow_tray true runInBackground st)) = None.
Proof.
  unfold Main.onSetRunningInBackground, Main.createWindow_tray,
    Main.createTrayMenu. cbn [orb].
  destruct st as [[[|]|] n]; cbn; repeat split; intros; congruence.
Qed.
